(** * jest-diff: [diffLines.ts]

    A shallow embedding of [packages/jest-diff/src/diffLines.ts] and the
    properties of its whitespace highlighters, range formatters and the two
    patch assemblers ([diffExpand], [diffNoExpand]).

    - JavaScript strings are sequences of UTF-16 code units.
    - A thrown [TypeError] (reading a property of [undefined]) is [None].
    - The callbacks that the [diff-sequences] oracle invokes, in order, are
      the list of common runs it reports. *)

From Stdlib Require Import String Ascii.
From stdpp Require Import base option list numbers.

Local Open Scope nat_scope.

(** ** JavaScript strings *)

Module JS.

(** One UTF-16 code unit. *)
Definition char : Type := N.

Definition jsstring : Type := list char.

(** Reading an ASCII literal as a JavaScript string. *)
Definition js (s : string) : jsstring :=
map N_of_ascii (list_ascii_of_string s).

Arguments js : simpl never.

Definition DOLLAR : char := 36%N.
Definition AMPERSAND : char := 38%N.
Definition QUOTE : char := 39%N.
Definition BACKTICK : char := 96%N.
Definition NEWLINE : char := 10%N.

(** The character class [\s]: WhiteSpace and LineTerminator code points. *)
Definition is_space (ch : char) : bool :=
((9 <=? ch) && (ch <=? 13) || (ch =? 32) || (ch =? 160) || (ch =? 5760)
 || (8192 <=? ch) && (ch <=? 8202) || (ch =? 8232) || (ch =? 8233)
 || (ch =? 8239) || (ch =? 8287) || (ch =? 12288) || (ch =? 65279))%N.

Definition is_digit (ch : char) : bool := ((48 <=? ch) && (ch <=? 57))%N.

Definition digit_value (ch : char) : nat := N.to_nat (ch - 48).

(** [String.prototype.slice(0, end)]: a negative [end] counts from the
  end of the string. *)
Definition slice0 (s : jsstring) (e : Z) : jsstring :=
if (e <? 0)%Z then take (Z.to_nat (Z.max (Z.of_nat (length s) + e) 0)) s
else take (Z.to_nat e) s.

(** [String.prototype.split('\n')]. *)
Fixpoint split_newline (s : jsstring) : list jsstring :=
match s with
| [] => [[]]
| ch :: s' =>
    if (ch =? NEWLINE)%N then [] :: split_newline s'
    else match split_newline s' with
         | [] => [[ch]]
         | l :: ls => (ch :: l) :: ls
         end
end.

(** [Array.prototype.join('\n')]. *)
Fixpoint join_newline (lines : list jsstring) : jsstring :=
match lines with
| [] => []
| [l] => l
| l :: ls => l ++ NEWLINE :: join_newline ls
end.

(** *** Regular expressions

  The backtracking matcher of the ECMAScript specification, for the
  pattern constructs that [diffLines.ts] uses. *)

Inductive regex : Type :=
| CharSpace                              (* \s *)
| CharNotSpace                           (* [^\s] *)
| AssertStart                            (* ^ *)
| AssertEnd                              (* $ *)
| Seq (r1 r2 : regex)                    (* r1 r2 *)
| Group (n : nat) (r : regex)            (* ( r ), the n-th capturing group *)
| Repeat (min : nat) (r : regex)         (* greedy r{min,} *)
| Lookahead (r : regex).                 (* (?= r ) *)

(** A match state: the input that is still ahead of [endIndex], and the
  captures, the n-th group at index [n - 1]. *)
Record MatchState : Type := mkMatchState {
rest : jsstring;
captures : list (option jsstring)
}.

Definition MatchResult : Type := option MatchState.
Definition Continuation : Type := MatchState -> MatchResult.
Definition Matcher : Type := MatchState -> Continuation -> MatchResult.

(** The capturing groups inside a pattern. *)
Fixpoint groups (r : regex) : list nat :=
match r with
| Seq r1 r2 => groups r1 ++ groups r2
| Group n r' => n :: groups r'
| Repeat _ r' => groups r'
| Lookahead r' => groups r'
| _ => []
end.

Definition clear_captures (parens : list nat) (caps : list (option jsstring))
: list (option jsstring) :=
foldr (fun n acc => <[pred n := None]> acc) caps parens.

(** RepeatMatcher(m, min, ∞, greedy, x, c, parenIndex, parenCount). Every
  iteration with [min = 0] consumes input, so [fuel] above
  [length (rest x) + min] is never exhausted. *)
Fixpoint RepeatMatcher (fuel : nat) (m : Matcher) (parens : list nat)
  (min : nat) (x : MatchState) (c : Continuation) : MatchResult :=
match fuel with
| 0 => None
| S fuel' =>
    let d : Continuation := fun y =>
      if (min =? 0) && (length (rest y) =? length (rest x)) then None
      else RepeatMatcher fuel' m parens (pred min) y c in
    let xr := mkMatchState (rest x) (clear_captures parens (captures x)) in
    if min =? 0 then
      match m xr d with
      | Some z => Some z
      | None => c x
      end
    else m xr d
end.

Definition char_matcher (p : char -> bool) : Matcher := fun x c =>
match rest x with
| ch :: t => if p ch then c (mkMatchState t (captures x)) else None
| [] => None
end.

Fixpoint compile (inputLength : nat) (r : regex) : Matcher :=
match r with
| CharSpace => char_matcher is_space
| CharNotSpace => char_matcher (fun ch => negb (is_space ch))
| AssertStart => fun x c =>
    if length (rest x) =? inputLength then c x else None
| AssertEnd => fun x c =>
    match rest x with [] => c x | _ :: _ => None end
| Seq r1 r2 => fun x c =>
    compile inputLength r1 x (fun y => compile inputLength r2 y c)
| Group n r' => fun x c =>
    compile inputLength r' x (fun y =>
      let s := take (length (rest x) - length (rest y)) (rest x) in
      c (mkMatchState (rest y) (<[pred n := Some s]> (captures y))))
| Repeat min r' => fun x c =>
    RepeatMatcher (S (length (rest x) + min)) (compile inputLength r')
      (groups r') min x c
| Lookahead r' => fun x c =>
    match compile inputLength r' x Some with
    | Some y => c (mkMatchState (rest x) (captures y))
    | None => None
    end
end.

(** RegExpBuiltinExec for a pattern without flags: the first index, from 0
  up to the length of the input, at which the pattern matches. *)
Fixpoint exec_from (m : Matcher) (nCaptures : nat) (position : nat)
  (s : jsstring) : option (nat * MatchState) :=
match m (mkMatchState s (replicate nCaptures None)) Some with
| Some y => Some (position, y)
| None =>
    match s with
    | [] => None
    | _ :: s' => exec_from m nCaptures (S position) s'
    end
end.

Definition exec (r : regex) (str : jsstring) : option (nat * MatchState) :=
exec_from (compile (length str) r) (length (groups r)) 0 str.

(** GetSubstitution(matched, str, position, captures, undefined,
  replacement): the expansion of the [$] patterns of a replacement
  template. *)
Fixpoint GetSubstitution (matched str : jsstring) (position : nat)
  (caps : list (option jsstring)) (replacement : jsstring) : jsstring :=
let capture (index : nat) : jsstring :=
  default [] (mjoin (caps !! pred index)) in
let m := length caps in
match replacement with
| [] => []
| ch :: t =>
    if negb (ch =? DOLLAR)%N
    then ch :: GetSubstitution matched str position caps t
    else
      match t with
      | [] => [ch]
      | d :: t' =>
          if (d =? DOLLAR)%N then
            DOLLAR :: GetSubstitution matched str position caps t'
          else if (d =? AMPERSAND)%N then
            matched ++ GetSubstitution matched str position caps t'
          else if (d =? BACKTICK)%N then
            take position str
              ++ GetSubstitution matched str position caps t'
          else if (d =? QUOTE)%N then
            drop (position + length matched) str
              ++ GetSubstitution matched str position caps t'
          else if is_digit d then
            let one :=
              let index := digit_value d in
              (if (1 <=? index) && (index <=? m) then capture index
               else [ch; d])
                ++ GetSubstitution matched str position caps t' in
            match t' with
            | d2 :: t'' =>
                let index := 10 * digit_value d + digit_value d2 in
                if is_digit d2 && (index <=? m) then
                  (if 1 <=? index then capture index else [ch; d; d2])
                    ++ GetSubstitution matched str position caps t''
                else one
            | [] => one
            end
          else ch :: GetSubstitution matched str position caps t
      end
end.

(** [str.replace(regexp, replaceValue)] for a pattern without the global
  flag and a string [replaceValue]. *)
Definition replace (str : jsstring) (r : regex) (replaceValue : jsstring)
: jsstring :=
match exec r str with
| None => str
| Some (position, y) =>
    let matched :=
      take (length str - position - length (rest y)) (drop position str) in
    take position str
      ++ GetSubstitution matched str position (captures y) replaceValue
      ++ rest y
end.

End JS.

Import JS.

(** ** The decorations of [chalk] *)

(** A [Chalk] instance is a function from strings to strings. *)
Definition Chalk : Type := jsstring -> jsstring.

(** ** Whitespace highlighters *)

(** [/\s+$/] *)
Definition reTrailingSpaces : regex := Seq (Repeat 1 CharSpace) AssertEnd.

(** [/^(\s\s)*(\s)(?=[^\s])/] *)
Definition reOddLeadingSpaces : regex :=
  Seq AssertStart
    (Seq (Repeat 0 (Group 1 (Seq CharSpace CharSpace)))
       (Seq (Group 2 CharSpace) (Lookahead CharNotSpace))).

Definition highlightTrailingSpaces (line : jsstring) (bgColor : Chalk)
  : jsstring :=
  replace line reTrailingSpaces (bgColor (js "$&")).

Definition highlightLeadingTrailingSpaces (line : jsstring) (bgColor : Chalk)
  : jsstring :=
  replace (highlightTrailingSpaces line bgColor) reOddLeadingSpaces
    (js "$1" ++ bgColor (js "$2")).

Definition Highlight : Type := jsstring -> Chalk -> jsstring.

Definition getHighlightSpaces (bothEdges : bool) : Highlight :=
  if bothEdges then highlightLeadingTrailingSpaces
  else highlightTrailingSpaces.

(** ** Data of the module *)

(** An [Array<string>]: an object, with an identity that [!==] compares. *)
Record LineArray : Type := mkLines {
  oid : nat;
  elems : list jsstring
}.

(** [x !== y] on array objects. *)
Definition ref_neq (x y : LineArray) : bool := negb (oid x =? oid y).

(** The fields of [DiffOptionsNormalized] that this module reads. *)
Record DiffOptionsNormalized : Type := mkOptions {
  aColor : Chalk;
  aIndicator : jsstring;
  bColor : Chalk;
  bIndicator : jsstring;
  commonColor : Chalk;
  commonIndicator : jsstring;
  contextLines : nat;
  expand : bool
}.

(** [ChangeCounts = {a: number, b: number}]. *)
Record ChangeCounts : Type := mkCounts {
  count_a : nat;
  count_b : nat
}.

(** One call [foundSubsequence(nCommon, aCommon, bCommon)] of the oracle. *)
Record Run : Type := mkRun {
  nCommon : nat;
  aCommon : nat;
  bCommon : nat
}.

(** What the module imports: three styles of [chalk], the sentinel of
    [./constants], the two printers of [./printDiffs], and the default
    export of [diff-sequences], as the list of the calls it makes to
    [foundSubsequence]. *)
Record Imports : Type := mkImports {
  fgIndent : Chalk;                                   (* chalk.cyan *)
  bgCommon : Chalk;                                   (* chalk.bgYellow *)
  bgInverse : Chalk;                                  (* chalk.inverse *)
  NO_DIFF_MESSAGE : jsstring;
  createPatchMark :
    nat -> nat -> nat -> nat -> DiffOptionsNormalized -> jsstring;
  printAnnotation : DiffOptionsNormalized -> ChangeCounts -> jsstring;
  diff : nat -> nat -> (nat -> nat -> bool) -> list Run
}.

(** [isCommon]: [aLinesUn[aIndex] === bLinesUn[bIndex]]; outside the arrays
    both sides read [undefined]. *)
Definition isCommon (aLinesUn bLinesUn : LineArray) (aIndex bIndex : nat)
  : bool :=
  bool_decide (elems aLinesUn !! aIndex = elems bLinesUn !! bIndex).

(** The callbacks of one call of the oracle, in order. *)
Fixpoint run_callbacks {S : Type} (callback : S -> Run -> option S)
    (st : S) (runs : list Run) : option S :=
  match runs with
  | [] => Some st
  | r :: runs' => st' ← callback st r; run_callbacks callback st' runs'
  end.

(** [array[i] = v]: inside the array the element is replaced; at
    [array.length] or beyond the array grows, and [join] reads the holes
    as empty strings. *)
Definition array_set (array : list jsstring) (i : nat) (v : jsstring)
  : list jsstring :=
  if i <? length array then <[i := v]> array
  else array ++ replicate (i - length array) [] ++ [v].

(** ** Range formatters *)

Section Formatters.

Variable ext : Imports.

(** The line that one iteration of [formatDelete] puts. *)
Definition deleteLine (highlightSpaces : Highlight)
    (options : DiffOptionsNormalized) (aLineUn aLineIn : jsstring)
  : jsstring :=
  let indentation :=
    slice0 aLineIn (Z.of_nat (length aLineIn) - Z.of_nat (length aLineUn)) in
  aColor options
    (aIndicator options ++ js " " ++ indentation
       ++ highlightSpaces aLineUn (bgInverse ext)).

(** [for (aIndex = aStart; aIndex !== aEnd; aIndex += 1)]. With
    [aEnd < aStart] the index leaves the arrays before it meets [aEnd],
    and the body throws. *)
Definition formatDelete (aStart aEnd : nat) (aLinesUn aLinesIn : LineArray)
    (options : DiffOptionsNormalized) : option (list jsstring) :=
  let highlightSpaces := getHighlightSpaces (ref_neq aLinesUn aLinesIn) in
  if aEnd <? aStart then None
  else
    mapM (fun aIndex =>
            aLineUn ← elems aLinesUn !! aIndex;
            aLineIn ← elems aLinesIn !! aIndex;
            Some (deleteLine highlightSpaces options aLineUn aLineIn))
      (seq aStart (aEnd - aStart)).

Definition insertLine (highlightSpaces : Highlight)
    (options : DiffOptionsNormalized) (bLineUn bLineIn : jsstring)
  : jsstring :=
  let indentation :=
    slice0 bLineIn (Z.of_nat (length bLineIn) - Z.of_nat (length bLineUn)) in
  bColor options
    (bIndicator options ++ js " " ++ indentation
       ++ highlightSpaces bLineUn (bgInverse ext)).

Definition formatInsert (bStart bEnd : nat) (bLinesUn bLinesIn : LineArray)
    (options : DiffOptionsNormalized) : option (list jsstring) :=
  let highlightSpaces := getHighlightSpaces (ref_neq bLinesUn bLinesIn) in
  if bEnd <? bStart then None
  else
    mapM (fun bIndex =>
            bLineUn ← elems bLinesUn !! bIndex;
            bLineIn ← elems bLinesIn !! bIndex;
            Some (insertLine highlightSpaces options bLineUn bLineIn))
      (seq bStart (bEnd - bStart)).

(** The line that one iteration of [formatCommon] puts. *)
Definition commonLine (highlightSpaces : Highlight)
    (options : DiffOptionsNormalized) (aLineIn bLineUn bLineIn : jsstring)
  : jsstring :=
  let bLineInLength := length bLineIn in
  let indentation :=
    slice0 bLineIn (Z.of_nat bLineInLength - Z.of_nat (length bLineUn)) in
  let hasSameIndentation := length aLineIn =? bLineInLength in
  let fg := if hasSameIndentation then commonColor options
            else fgIndent ext in
  let bg := if hasSameIndentation then bgCommon ext else bgInverse ext in
  fg (commonIndicator options ++ js " " ++ indentation
        ++ highlightSpaces bLineUn bg).

(** [for (; nCommon !== 0; nCommon -= 1, aCommon += 1, bCommon += 1)]. *)
Fixpoint formatCommon (nCommon aCommon bCommon : nat)
    (aLinesIn bLinesUn bLinesIn : LineArray)
    (options : DiffOptionsNormalized) : option (list jsstring) :=
  let highlightSpaces := getHighlightSpaces (ref_neq bLinesUn bLinesIn) in
  match nCommon with
  | 0 => Some []
  | S nCommon' =>
      bLineUn ← elems bLinesUn !! bCommon;
      bLineIn ← elems bLinesIn !! bCommon;
      aLineIn ← elems aLinesIn !! aCommon;
      lines ← formatCommon nCommon' (S aCommon) (S bCommon)
                aLinesIn bLinesUn bLinesIn options;
      Some (commonLine highlightSpaces options aLineIn bLineUn bLineIn
              :: lines)
  end.

End Formatters.

(** ** [diffExpand] *)

Module Expand.

(** The variables that the callback captures. *)
Record State : Type := mkState {
  array : list jsstring;
  changeCounts : ChangeCounts;
  aStart : nat;
  bStart : nat
}.

Section Assembler.

Variable ext : Imports.
Variables aLinesUn bLinesUn aLinesIn bLinesIn : LineArray.
Variable options : DiffOptionsNormalized.

Definition initial : State := mkState [] (mkCounts 0 0) 0 0.

(** The differences [aCommon - aStart] are taken in [nat]: where one
    would be negative, [formatDelete] or [formatInsert] throws. *)
Definition foundSubsequence (st : State) (r : Run) : option State :=
  let '(mkRun nCommon aCommon bCommon) := r in
  let changeCounts :=
    mkCounts (count_a (changeCounts st) + (aCommon - aStart st))
             (count_b (changeCounts st) + (bCommon - bStart st)) in
  deletes ← formatDelete ext (aStart st) aCommon aLinesUn aLinesIn options;
  inserts ← formatInsert ext (bStart st) bCommon bLinesUn bLinesIn options;
  commons ← formatCommon ext nCommon aCommon bCommon
              aLinesIn bLinesUn bLinesIn options;
  Some (mkState (array st ++ deletes ++ inserts ++ commons) changeCounts
          (aCommon + nCommon) (bCommon + nCommon)).

(** After the last common subsequence: the remaining change lines. *)
Definition remaining (st : State) : option State :=
  let aLength := length (elems aLinesUn) in
  let bLength := length (elems bLinesUn) in
  let changeCounts :=
    mkCounts (count_a (changeCounts st) + (aLength - aStart st))
             (count_b (changeCounts st) + (bLength - bStart st)) in
  deletes ← formatDelete ext (aStart st) aLength aLinesUn aLinesIn options;
  inserts ← formatInsert ext (bStart st) bLength bLinesUn bLinesIn options;
  Some (mkState (array st ++ deletes ++ inserts) changeCounts
          (aStart st) (bStart st)).

Definition pass : option State :=
  let aLength := length (elems aLinesUn) in
  let bLength := length (elems bLinesUn) in
  st ← run_callbacks foundSubsequence initial
         (diff ext aLength bLength (isCommon aLinesUn bLinesUn));
  remaining st.

Definition diffExpand : option jsstring :=
  st ← pass;
  Some (printAnnotation ext options (changeCounts st)
          ++ join_newline (array st)).

End Assembler.

End Expand.

(** ** [diffNoExpand] *)

Module NoExpand.

(** The variables that the callback captures. *)
Record State : Type := mkState {
  iPatchMark : nat;
  array : list jsstring;
  isAtEnd : bool;
  changeCounts : ChangeCounts;
  aStart : nat;
  aEnd : nat;
  bStart : nat;
  bEnd : nat
}.

Section Assembler.

Variable ext : Imports.
Variables aLinesUn bLinesUn aLinesIn bLinesIn : LineArray.
Variable options : DiffOptionsNormalized.

Definition aLength : nat := length (elems aLinesUn).
Definition bLength : nat := length (elems bLinesUn).
Definition nContextLines : nat := contextLines options.
Definition nContextLines2 : nat := nContextLines + nContextLines.

Definition initial : State :=
  mkState 0 [[]] false (mkCounts 0 0) 0 0 0 0.

(** The differences [aStartCommon - aEnd] are taken in [nat]: where one
    would be negative, [formatDelete] or [formatInsert] throws. *)
Definition foundSubsequence (st : State) (r : Run) : option State :=
  let '(mkRun nCommon aStartCommon bStartCommon) := r in
  let aEndCommon := aStartCommon + nCommon in
  let bEndCommon := bStartCommon + nCommon in
  let isAtEnd := (aEndCommon =? aLength) && (bEndCommon =? bLength) in
  (* If common subsequence is at start, re-initialize the first patch. *)
  if (aStartCommon =? 0) && (bStartCommon =? 0) then
    let nLines :=
      if nContextLines <? nCommon then nContextLines else nCommon in
    let aStart := aEndCommon - nLines in
    let bStart := bEndCommon - nLines in
    commons ← formatCommon ext nLines aStart bStart
                aLinesIn bLinesUn bLinesIn options;
    Some (mkState (iPatchMark st) (array st ++ commons) isAtEnd
            (changeCounts st) aStart aEndCommon bStart bEndCommon)
  else
    (* Format preceding change lines. *)
    let changeCounts :=
      mkCounts (count_a (changeCounts st) + (aStartCommon - aEnd st))
               (count_b (changeCounts st) + (bStartCommon - bEnd st)) in
    deletes ← formatDelete ext (aEnd st) aStartCommon
                aLinesUn aLinesIn options;
    inserts ← formatInsert ext (bEnd st) bStartCommon
                bLinesUn bLinesIn options;
    let array := array st ++ deletes ++ inserts in
    let aEnd := aStartCommon in
    let bEnd := bStartCommon in
    let maxContextLines :=
      if isAtEnd then nContextLines else nContextLines2 in
    if nCommon <=? maxContextLines then
      (* The patch includes all lines in the common subsequence. *)
      commons ← formatCommon ext nCommon aEnd bEnd
                  aLinesIn bLinesUn bLinesIn options;
      Some (mkState (iPatchMark st) (array ++ commons) isAtEnd
              changeCounts
              (aStart st) (aEnd + nCommon) (bStart st) (bEnd + nCommon))
    else
      (* The patch ends because context is less than number of common
         lines. *)
      commons ← formatCommon ext nContextLines aEnd bEnd
                  aLinesIn bLinesUn bLinesIn options;
      let array := array ++ commons in
      let aEnd := aEnd + nContextLines in
      let bEnd := bEnd + nContextLines in
      let array :=
        array_set array (iPatchMark st)
          (createPatchMark ext (aStart st) aEnd (bStart st) bEnd
             options) in
      (* If common subsequence is not at end, another patch follows. *)
      if negb isAtEnd then
        let iPatchMark := length array in
        let array := array_set array iPatchMark [] in
        let nLines :=
          if nContextLines <? nCommon then nContextLines else nCommon in
        let aStart := aEndCommon - nLines in
        let bStart := bEndCommon - nLines in
        commons ← formatCommon ext nLines aStart bStart
                    aLinesIn bLinesUn bLinesIn options;
        Some (mkState iPatchMark (array ++ commons) isAtEnd changeCounts
                aStart aEndCommon bStart bEndCommon)
      else
        Some (mkState (iPatchMark st) array isAtEnd changeCounts
                (aStart st) aEnd (bStart st) bEnd).

(** After the oracle returns: the remaining change lines. *)
Definition remaining (st : State) : option State :=
  if negb (isAtEnd st) then
    let changeCounts :=
      mkCounts (count_a (changeCounts st) + (aLength - aEnd st))
               (count_b (changeCounts st) + (bLength - bEnd st)) in
    deletes ← formatDelete ext (aEnd st) aLength aLinesUn aLinesIn options;
    inserts ← formatInsert ext (bEnd st) bLength bLinesUn bLinesIn options;
    Some (mkState (iPatchMark st) (array st ++ deletes ++ inserts)
            (isAtEnd st) changeCounts
            (aStart st) aLength (bStart st) bLength)
  else Some st.

(** The placeholder of the last patch: deleted, or replaced. *)
Definition lastPatchMark (st : State) : State :=
  let array :=
    if (aStart st =? 0) && (aEnd st =? aLength)
       && (bStart st =? 0) && (bEnd st =? bLength)
    then drop 1 (array st)                          (* array.splice(0, 1) *)
    else array_set (array st) (iPatchMark st)
           (createPatchMark ext (aStart st) (aEnd st) (bStart st)
              (bEnd st) options) in
  mkState (iPatchMark st) array (isAtEnd st) (changeCounts st)
    (aStart st) (aEnd st) (bStart st) (bEnd st).

Definition pass : option State :=
  st ← run_callbacks foundSubsequence initial
         (diff ext aLength bLength (isCommon aLinesUn bLinesUn));
  st ← remaining st;
  Some (lastPatchMark st).

Definition diffNoExpand : option jsstring :=
  st ← pass;
  Some (printAnnotation ext options (changeCounts st)
          ++ join_newline (array st)).

End Assembler.

End NoExpand.

(** ** The default export *)

Record Original : Type := mkOriginal {
  original_a : jsstring;
  original_b : jsstring
}.

Section DefaultExport.

Variable ext : Imports.

(** The four arrays that the assemblers receive. Each [split] makes a
    new array object. *)
Definition lineArrays (a b : jsstring) (original : option Original)
  : LineArray * LineArray * LineArray * LineArray :=
  let aLinesUn := mkLines 0 (split_newline a) in
  let bLinesUn := mkLines 1 (split_newline b) in
  match original with
  | None => (aLinesUn, bLinesUn, aLinesUn, bLinesUn)
  | Some o =>
      let aLinesIn := mkLines 2 (split_newline (original_a o)) in
      let bLinesIn := mkLines 3 (split_newline (original_b o)) in
      if negb (length (elems aLinesUn) =? length (elems aLinesIn))
         || negb (length (elems bLinesUn) =? length (elems bLinesIn))
      then
        (* Fall back if unindented and indented lines are inconsistent. *)
        (aLinesIn, bLinesIn, aLinesIn, bLinesIn)
      else (aLinesUn, bLinesUn, aLinesIn, bLinesIn)
  end.

Definition diffLines (a b : jsstring) (options : DiffOptionsNormalized)
    (original : option Original) : option jsstring :=
  if bool_decide (a = b) then Some (NO_DIFF_MESSAGE ext)
  else
    let '(aLinesUn, bLinesUn, aLinesIn, bLinesIn) :=
      lineArrays a b original in
    if expand options
    then Expand.diffExpand ext aLinesUn bLinesUn aLinesIn bLinesIn options
    else NoExpand.diffNoExpand ext aLinesUn bLinesUn aLinesIn bLinesIn
           options.

End DefaultExport.

(** ** Concrete imports, for running the model *)

Module Sample.

Definition brackets : Chalk := fun s => js "[" ++ s ++ js "]".
Definition braces : Chalk := fun s => js "{" ++ s ++ js "}".
Definition plain : Chalk := fun s => s.

Definition digit (n : nat) : char := N.of_nat (48 + n mod 10).

Fixpoint decimal_fuel (fuel n : nat) : jsstring :=
  match fuel with
  | 0 => []
  | S fuel' =>
      if n <? 10 then [digit n]
      else decimal_fuel fuel' (n / 10) ++ [digit n]
  end.
Definition decimal (n : nat) : jsstring := decimal_fuel (S n) n.

(** A patch mark in the manner of a unified diff. *)
Definition patchMark (aStart aEnd bStart bEnd : nat)
    (_ : DiffOptionsNormalized) : jsstring :=
  js "@@ -" ++ decimal (aStart + 1) ++ js "," ++ decimal (aEnd - aStart)
    ++ js " +" ++ decimal (bStart + 1) ++ js "," ++ decimal (bEnd - bStart)
    ++ js " @@".

Definition annotation (_ : DiffOptionsNormalized) (c : ChangeCounts)
  : jsstring :=
  js "- " ++ decimal (count_a c) ++ js " + " ++ decimal (count_b c)
    ++ [NEWLINE].

(** An oracle that reports the longest common prefix and, when the rest
    differs, nothing else. *)
Fixpoint commonPrefix (n : nat) (isCommon : nat -> nat -> bool) (i : nat)
  : nat :=
  match n with
  | 0 => 0
  | S n' => if isCommon i i then S (commonPrefix n' isCommon (S i)) else 0
  end.

Definition prefixOracle (aLength bLength : nat)
    (isCommon : nat -> nat -> bool) : list Run :=
  match commonPrefix (aLength `min` bLength) isCommon 0 with
  | 0 => []
  | S n => [mkRun (S n) 0 0]
  end.

(** An oracle that replays a given list of runs. *)
Definition replay (runs : list Run) (_ _ : nat) (_ : nat -> nat -> bool)
  : list Run := runs.

Definition imports (oracle : nat -> nat -> (nat -> nat -> bool) -> list Run)
  : Imports :=
  mkImports plain braces brackets (js "Compared values have no visual difference.")
    patchMark annotation oracle.

Definition options (c : nat) (e : bool) : DiffOptionsNormalized :=
  mkOptions plain (js "-") plain (js "+") plain (js " ") c e.

End Sample.

(** ** Vocabulary of the properties *)

Section Vocabulary.

Variable ext : Imports.

(** The delete line of index [aIndex]. *)
Definition deleteLineAt (aLinesUn aLinesIn : LineArray)
    (options : DiffOptionsNormalized) (aIndex : nat) : jsstring :=
  deleteLine ext (getHighlightSpaces (ref_neq aLinesUn aLinesIn)) options
    (elems aLinesUn !!! aIndex) (elems aLinesIn !!! aIndex).

(** The insert line of index [bIndex]. *)
Definition insertLineAt (bLinesUn bLinesIn : LineArray)
    (options : DiffOptionsNormalized) (bIndex : nat) : jsstring :=
  insertLine ext (getHighlightSpaces (ref_neq bLinesUn bLinesIn)) options
    (elems bLinesUn !!! bIndex) (elems bLinesIn !!! bIndex).

(** The common line of the index pair [(aIndex, bIndex)]. *)
Definition commonLineAt (aLinesIn bLinesUn bLinesIn : LineArray)
    (options : DiffOptionsNormalized) (aIndex bIndex : nat) : jsstring :=
  commonLine ext (getHighlightSpaces (ref_neq bLinesUn bLinesIn)) options
    (elems aLinesIn !!! aIndex) (elems bLinesUn !!! bIndex)
    (elems bLinesIn !!! bIndex).

(** The common lines of [n] consecutive index pairs. *)
Definition commonLines (aLinesIn bLinesUn bLinesIn : LineArray)
    (options : DiffOptionsNormalized) (n aIndex bIndex : nat)
  : list jsstring :=
  (fun k => commonLineAt aLinesIn bLinesUn bLinesIn options
              (aIndex + k) (bIndex + k)) <$> seq 0 n.

End Vocabulary.

(** The runs of the oracle lie inside the two sequences and do not go
    back: each starts at or after the end of the one before. *)
Fixpoint wf_runs (aLength bLength aFrom bFrom : nat) (runs : list Run)
  : bool :=
  match runs with
  | [] => (aFrom <=? aLength) && (bFrom <=? bLength)
  | r :: runs' =>
      (aFrom <=? aCommon r) && (bFrom <=? bCommon r)
      && (aCommon r + nCommon r <=? aLength)
      && (bCommon r + nCommon r <=? bLength)
      && wf_runs aLength bLength (aCommon r + nCommon r)
           (bCommon r + nCommon r) runs'
  end.

(** The four arrays agree on their lengths, side by side. *)
Definition consistent (aLinesUn bLinesUn aLinesIn bLinesIn : LineArray)
  : Prop :=
  length (elems aLinesUn) = length (elems aLinesIn)
  ∧ length (elems bLinesUn) = length (elems bLinesIn).

(** *** Highlights *)

(** A run [s] wrapped in the opening and closing sequences [o] and [c]
    of a style; no run, no wrapping. *)
Definition wrap (o c s : jsstring) : jsstring :=
  match s with
  | [] => []
  | _ :: _ => o ++ s ++ c
  end.

(** The captures of [(\s\s)*(\s)] on a run of spaces of odd length: the
    last pair that the repeated group has matched, or [capture1] if it
    has matched none, and the space after it. *)
Fixpoint odd_run_captures (capture1 : option jsstring) (ws : jsstring)
  : option (list (option jsstring)) :=
  match ws with
  | [] => None
  | [s] => Some [capture1; Some [s]]
  | s1 :: s2 :: ws' => odd_run_captures (Some [s1; s2]) ws'
  end.

(** *** Windows *)

Section WindowVocabulary.

Import NoExpand.

Variable ext : Imports.
Variables aLinesUn bLinesUn aLinesIn bLinesIn : LineArray.
Variable options : DiffOptionsNormalized.

(** The run starts at index 0 on both sides. *)
Definition atStart (r : Run) : bool :=
  (aCommon r =? 0) && (bCommon r =? 0).

(** The run ends at both sequence ends: it is the final run. *)
Definition atEnd (r : Run) : bool :=
  (aCommon r + nCommon r =? length (elems aLinesUn))
  && (bCommon r + nCommon r =? length (elems bLinesUn)).

(** The change lines between the end of the current window and [r]. *)
Definition changeLines (st : State) (r : Run) : list jsstring :=
  (deleteLineAt ext aLinesUn aLinesIn options
     <$> seq (aEnd st) (aCommon r - aEnd st))
  ++ (insertLineAt ext bLinesUn bLinesIn options
        <$> seq (bEnd st) (bCommon r - bEnd st)).

(** After the preceding changes, all the lines of [r] are put in the
    current window: the placeholder of the window stays where and what
    it was, no other placeholder or patch mark is put, and the window
    now ends where [r] ends. *)
Definition emitted_in_full (st st' : State) (r : Run) : Prop :=
  array st'
  = array st ++ changeLines st r
      ++ commonLines ext aLinesIn bLinesUn bLinesIn options
           (nCommon r) (aCommon r) (bCommon r)
  ∧ iPatchMark st' = iPatchMark st
  ∧ aStart st' = aStart st ∧ bStart st' = bStart st
  ∧ aEnd st' = aCommon r + nCommon r ∧ bEnd st' = bCommon r + nCommon r.

(** After the preceding changes, the first [c] lines of [r] close the
    current window and its placeholder becomes the patch mark of the
    window's boundaries; then, exactly when [r] is not the final run, a
    new placeholder and the last [min c (nCommon r)] lines of [r] open
    the next window. *)
Definition window_closed (st st' : State) (r : Run) : Prop :=
  let c := contextLines options in
  let closed :=
    <[iPatchMark st :=
        createPatchMark ext (aStart st) (aCommon r + c)
          (bStart st) (bCommon r + c) options]>
      (array st ++ changeLines st r
         ++ commonLines ext aLinesIn bLinesUn bLinesIn options
              c (aCommon r) (bCommon r)) in
  if atEnd r then
    array st' = closed
    ∧ iPatchMark st' = iPatchMark st
    ∧ aStart st' = aStart st ∧ bStart st' = bStart st
    ∧ aEnd st' = aCommon r + c ∧ bEnd st' = bCommon r + c
  else
    let nLines := c `min` nCommon r in
    let aStartNext := aCommon r + nCommon r - nLines in
    let bStartNext := bCommon r + nCommon r - nLines in
    array st'
    = closed ++ [[]]
        ++ commonLines ext aLinesIn bLinesUn bLinesIn options
             nLines aStartNext bStartNext
    ∧ iPatchMark st' = length closed
    ∧ aStart st' = aStartNext ∧ bStart st' = bStartNext
    ∧ aEnd st' = aCommon r + nCommon r ∧ bEnd st' = bCommon r + nCommon r.

End WindowVocabulary.

(** *** Coverage *)

(** What an output line consumes: an index of side A (a delete line), an
    index of side B (an insert line), or one of each (a common line). *)
Inductive Consumed : Type :=
| DeleteLine (aIndex : nat)
| InsertLine (bIndex : nat)
| CommonLine (aIndex bIndex : nat).

Definition consumedA (items : list Consumed) : list nat :=
  items ≫= (fun item =>
    match item with
    | DeleteLine aIndex | CommonLine aIndex _ => [aIndex]
    | InsertLine _ => []
    end).

Definition consumedB (items : list Consumed) : list nat :=
  items ≫= (fun item =>
    match item with
    | InsertLine bIndex | CommonLine _ bIndex => [bIndex]
    | DeleteLine _ => []
    end).

Section Coverage.

Variable ext : Imports.
Variables aLinesUn bLinesUn aLinesIn bLinesIn : LineArray.
Variable options : DiffOptionsNormalized.

(** The output line that consumes [item]. *)
Definition render (item : Consumed) : jsstring :=
  match item with
  | DeleteLine aIndex => deleteLineAt ext aLinesUn aLinesIn options aIndex
  | InsertLine bIndex => insertLineAt ext bLinesUn bLinesIn options bIndex
  | CommonLine aIndex bIndex =>
      commonLineAt ext aLinesIn bLinesUn bLinesIn options aIndex bIndex
  end.

Definition changeItems (aFrom aTo bFrom bTo : nat) : list Consumed :=
  (DeleteLine <$> seq aFrom (aTo - aFrom))
  ++ (InsertLine <$> seq bFrom (bTo - bFrom)).

Definition commonItems (n aIndex bIndex : nat) : list Consumed :=
  (fun k => CommonLine (aIndex + k) (bIndex + k)) <$> seq 0 n.

(** The edit script of a list of runs, from [(aFrom, bFrom)] on. *)
Fixpoint script (aFrom bFrom : nat) (runs : list Run) : list Consumed :=
  match runs with
  | [] =>
      changeItems aFrom (length (elems aLinesUn))
        bFrom (length (elems bLinesUn))
  | r :: runs' =>
      changeItems aFrom (aCommon r) bFrom (bCommon r)
      ++ commonItems (nCommon r) (aCommon r) (bCommon r)
      ++ script (aCommon r + nCommon r) (bCommon r + nCommon r) runs'
  end.

(** No line of the run [r] is left out in windowed mode: at the start
    the run has at most [c] lines, elsewhere at most [maxContextLines]. *)
Definition untruncated (r : Run) : bool :=
  let c := contextLines options in
  nCommon r
  <=? (if atStart r then c
       else if atEnd aLinesUn bLinesUn r then c else c + c).

(** The windowed state has one window, open from the start of both
    sequences, and holds what the expanded state holds. *)
Definition one_window (stw : NoExpand.State) (ste : Expand.State) : Prop :=
  NoExpand.array stw = [] :: Expand.array ste
  ∧ NoExpand.changeCounts stw = Expand.changeCounts ste
  ∧ NoExpand.iPatchMark stw = 0
  ∧ NoExpand.aStart stw = 0 ∧ NoExpand.bStart stw = 0
  ∧ NoExpand.aEnd stw = Expand.aStart ste
  ∧ NoExpand.bEnd stw = Expand.bStart ste
  ∧ (NoExpand.isAtEnd stw = true →
     Expand.aStart ste = length (elems aLinesUn)
     ∧ Expand.bStart ste = length (elems bLinesUn)).

End Coverage.

(** Four lines on each side, the first three in common. *)
Module Example3.
Definition x : jsstring := js "x".
Definition aLines : LineArray := mkLines 0 [x; x; x; js "y"].
Definition bLines : LineArray := mkLines 1 [x; x; x; js "z"].
Definition run : Run := mkRun 3 0 0.
Definition ext : Imports := Sample.imports (Sample.replay [run]).
Definition options : DiffOptionsNormalized := Sample.options 1 false.
End Example3.

(** One line on each side, and nothing in common. *)
Module Example1.
Definition aLines : LineArray := mkLines 0 [js "  a"].
Definition bLines : LineArray := mkLines 1 [js "b "].
Definition ext : Imports := Sample.imports Sample.prefixOracle.
Definition options : DiffOptionsNormalized := Sample.options 5 false.
End Example1.

(** *** Counts and windows of a whole pass *)

(** The number of common lines that the oracle reports. *)
Definition totalCommon (runs : list Run) : nat :=
  foldr (fun r n => nCommon r + n) 0 runs.

(** No run is empty. *)
Definition positive_runs (runs : list Run) : bool :=
  forallb (fun r => 0 <? nCommon r) runs.

Section WindowContents.

Variable ext : Imports.
Variables aLinesUn bLinesUn aLinesIn bLinesIn : LineArray.
Variable options : DiffOptionsNormalized.

(** The lines [lines] show exactly the indices [aStart, aEnd) of side A
    and [bStart, bEnd) of side B. *)
Definition shows (lines : list jsstring) (aStart aEnd bStart bEnd : nat)
  : Prop :=
  ∃ items,
    lines = render ext aLinesUn bLinesUn aLinesIn bLinesIn options <$> items
    ∧ consumedA items = seq aStart (aEnd - aStart)
    ∧ consumedB items = seq bStart (bEnd - bStart).

(** The open window of a state: its placeholder is in the array, it is
    the first line of the array unless the window starts after index 0,
    and the lines after it show the indices between the recorded
    boundaries. *)
Definition window_holds (st : NoExpand.State) : Prop :=
  NoExpand.iPatchMark st < length (NoExpand.array st)
  ∧ (NoExpand.iPatchMark st = 0 ∨ 0 < NoExpand.aStart st)
  ∧ NoExpand.aStart st ≤ NoExpand.aEnd st
  ∧ NoExpand.bStart st ≤ NoExpand.bEnd st
  ∧ shows (drop (S (NoExpand.iPatchMark st)) (NoExpand.array st))
      (NoExpand.aStart st) (NoExpand.aEnd st)
      (NoExpand.bStart st) (NoExpand.bEnd st).

End WindowContents.

(** Two lines on each side, for the formatters. *)
Module Example2.
Definition aLinesUn : LineArray := mkLines 0 [js "a "; js "b"].
Definition aLinesIn : LineArray := mkLines 2 [js "  a "; js "b"].
Definition bLinesUn : LineArray := mkLines 1 [js "a "; js "cdef"].
Definition bLinesIn : LineArray := mkLines 3 [js "    a "; js "cde"].
Definition ext : Imports := Sample.imports (Sample.replay [mkRun 1 0 0]).
Definition options : DiffOptionsNormalized := Sample.options 1 false.
End Example2.

(** * Lemmas *)

(** ** Range formatters *)

Section FormatterFacts.

Variable ext : Imports.
Variable options : DiffOptionsNormalized.

Lemma lookup_total_Some (l : list jsstring) (i : nat) :
  i < length l → l !! i = Some (l !!! i).
Proof. intros Hi. by apply list_lookup_lookup_total_lt. Qed.

Lemma formatDelete_Some (aLinesUn aLinesIn : LineArray) (aStart aEnd : nat) :
  aStart ≤ aEnd →
  aEnd ≤ length (elems aLinesUn) →
  aEnd ≤ length (elems aLinesIn) →
  formatDelete ext aStart aEnd aLinesUn aLinesIn options
  = Some (deleteLineAt ext aLinesUn aLinesIn options
            <$> seq aStart (aEnd - aStart)).
Proof.
  intros Hle HUn HIn. unfold formatDelete.
  destruct (Nat.ltb_spec aEnd aStart) as [?|_]; [lia|].
  apply mapM_Some_2, Forall2_fmap_r, Forall_Forall2_diag, Forall_seq.
  intros j Hj. simpl.
  rewrite !lookup_total_Some by lia. reflexivity.
Qed.

Lemma formatInsert_Some (bLinesUn bLinesIn : LineArray) (bStart bEnd : nat) :
  bStart ≤ bEnd →
  bEnd ≤ length (elems bLinesUn) →
  bEnd ≤ length (elems bLinesIn) →
  formatInsert ext bStart bEnd bLinesUn bLinesIn options
  = Some (insertLineAt ext bLinesUn bLinesIn options
            <$> seq bStart (bEnd - bStart)).
Proof.
  intros Hle HUn HIn. unfold formatInsert.
  destruct (Nat.ltb_spec bEnd bStart) as [?|_]; [lia|].
  apply mapM_Some_2, Forall2_fmap_r, Forall_Forall2_diag, Forall_seq.
  intros j Hj. simpl.
  rewrite !lookup_total_Some by lia. reflexivity.
Qed.

Lemma commonLines_S (aLinesIn bLinesUn bLinesIn : LineArray)
    (n aIndex bIndex : nat) :
  commonLines ext aLinesIn bLinesUn bLinesIn options (S n) aIndex bIndex
  = commonLineAt ext aLinesIn bLinesUn bLinesIn options aIndex bIndex
      :: commonLines ext aLinesIn bLinesUn bLinesIn options n
           (S aIndex) (S bIndex).
Proof.
  unfold commonLines. simpl. rewrite !Nat.add_0_r. f_equal.
  rewrite <- fmap_S_seq, <- list_fmap_compose.
  apply list_fmap_ext. intros _ k _. simpl.
  by rewrite !Nat.add_succ_r.
Qed.

Lemma formatCommon_Some (aLinesIn bLinesUn bLinesIn : LineArray)
    (n aIndex bIndex : nat) :
  aIndex + n ≤ length (elems aLinesIn) →
  bIndex + n ≤ length (elems bLinesUn) →
  bIndex + n ≤ length (elems bLinesIn) →
  formatCommon ext n aIndex bIndex aLinesIn bLinesUn bLinesIn options
  = Some (commonLines ext aLinesIn bLinesUn bLinesIn options
            n aIndex bIndex).
Proof.
  revert aIndex bIndex.
  induction n as [|n IH]; intros aIndex bIndex HA HUn HIn; [done|].
  rewrite commonLines_S. simpl.
  rewrite !lookup_total_Some by lia. simpl.
  rewrite IH by lia. reflexivity.
Qed.

Lemma length_commonLines (aLinesIn bLinesUn bLinesIn : LineArray)
    (n aIndex bIndex : nat) :
  length (commonLines ext aLinesIn bLinesUn bLinesIn options
            n aIndex bIndex) = n.
Proof. unfold commonLines. by rewrite length_fmap, length_seq. Qed.

(** C7. [formatCommon] puts one line for each of its [nCommon] index
    pairs. In each, the indentation is the prefix of the B-side
    indentation-preserving line [bLinesIn[bIndex]] that is left after the
    length of [bLinesUn[bIndex]]; and the line is decorated with
    [commonColor] and the same-indentation background [bgCommon] when the
    A-side and B-side indentation-preserving lines have equal length, with
    [fgIndent] and the inverse background [bgInverse] when they have
    not. *)
Theorem formatCommon_decoration (aLinesIn bLinesUn bLinesIn : LineArray)
    (n aIndex bIndex : nat) :
  aIndex + n ≤ length (elems aLinesIn) →
  bIndex + n ≤ length (elems bLinesUn) →
  bIndex + n ≤ length (elems bLinesIn) →
  ∃ lines,
    formatCommon ext n aIndex bIndex aLinesIn bLinesUn bLinesIn options
    = Some lines
    ∧ length lines = n
    ∧ ∀ k, k < n →
        let aLineIn := elems aLinesIn !!! (aIndex + k) in
        let bLineUn := elems bLinesUn !!! (bIndex + k) in
        let bLineIn := elems bLinesIn !!! (bIndex + k) in
        let indentation :=
          slice0 bLineIn
            (Z.of_nat (length bLineIn) - Z.of_nat (length bLineUn)) in
        let highlightSpaces := getHighlightSpaces (ref_neq bLinesUn bLinesIn) in
        (length aLineIn = length bLineIn →
         lines !! k
         = Some (commonColor options
                   (commonIndicator options ++ js " " ++ indentation
                      ++ highlightSpaces bLineUn (bgCommon ext))))
        ∧ (length aLineIn ≠ length bLineIn →
           lines !! k
           = Some (fgIndent ext
                     (commonIndicator options ++ js " " ++ indentation
                        ++ highlightSpaces bLineUn (bgInverse ext)))).
Proof.
  intros HA HUn HIn. eexists.
  split; [by apply formatCommon_Some|].
  split; [apply length_commonLines|].
  intros k Hk aLineIn bLineUn bLineIn indentation highlightSpaces.
  assert (commonLines ext aLinesIn bLinesUn bLinesIn options n aIndex bIndex
            !! k
          = Some (commonLineAt ext aLinesIn bLinesUn bLinesIn options
                    (aIndex + k) (bIndex + k))) as ->.
  { unfold commonLines. rewrite list_lookup_fmap.
    by rewrite (proj2 (lookup_seq 0 n k k)). }
  unfold commonLineAt, commonLine.
  match goal with
  | |- context [if ?b then commonColor options else _] =>
      destruct b eqn:Hsame
  end.
  - apply Nat.eqb_eq in Hsame.
    split; [reflexivity|]. intros Hne. contradict Hne. exact Hsame.
  - apply Nat.eqb_neq in Hsame.
    split; [|reflexivity]. intros Heq. contradict Hsame. exact Heq.
Qed.

End FormatterFacts.

Lemma formatCommon_decoration_witness :
  ∃ lines,
    formatCommon Example3.ext 2 1 1 Example3.aLines Example3.bLines
      Example3.bLines Example3.options = Some lines
    ∧ length lines = 2
    ∧ ∀ k, k < 2 →
        let aLineIn := elems Example3.aLines !!! (1 + k) in
        let bLineUn := elems Example3.bLines !!! (1 + k) in
        let bLineIn := elems Example3.bLines !!! (1 + k) in
        let indentation :=
          slice0 bLineIn
            (Z.of_nat (length bLineIn) - Z.of_nat (length bLineUn)) in
        let highlightSpaces :=
          getHighlightSpaces (ref_neq Example3.bLines Example3.bLines) in
        (length aLineIn = length bLineIn →
         lines !! k
         = Some (commonColor Example3.options
                   (commonIndicator Example3.options ++ js " " ++ indentation
                      ++ highlightSpaces bLineUn (bgCommon Example3.ext))))
        ∧ (length aLineIn ≠ length bLineIn →
           lines !! k
           = Some (fgIndent Example3.ext
                     (commonIndicator Example3.options ++ js " "
                        ++ indentation
                        ++ highlightSpaces bLineUn (bgInverse Example3.ext)))).
Proof.
  apply (formatCommon_decoration Example3.ext Example3.options
           Example3.aLines Example3.bLines Example3.bLines 2 1 1).
  - simpl. lia.
  - simpl. lia.
  - simpl. lia.
Defined.

(** ** One run in windowed mode *)

Section WindowFacts.

Import NoExpand.

Variable ext : Imports.
Variables aLinesUn bLinesUn aLinesIn bLinesIn : LineArray.
Variable options : DiffOptionsNormalized.

Local Abbreviation step :=
  (foundSubsequence ext aLinesUn bLinesUn aLinesIn bLinesIn options).
Local Abbreviation final := (atEnd aLinesUn bLinesUn).
Local Abbreviation changes :=
  (changeLines ext aLinesUn bLinesUn aLinesIn bLinesIn options).
Local Abbreviation commons :=
  (commonLines ext aLinesIn bLinesUn bLinesIn options).
Local Abbreviation c := (contextLines options).

Local Abbreviation in_full :=
  (emitted_in_full ext aLinesUn bLinesUn aLinesIn bLinesIn options).
Local Abbreviation closes :=
  (window_closed ext aLinesUn bLinesUn aLinesIn bLinesIn options).

Hypothesis Hconsistent : consistent aLinesUn bLinesUn aLinesIn bLinesIn.

Lemma array_set_lt (array : list jsstring) (i : nat) (v : jsstring) :
  i < length array → array_set array i v = <[i := v]> array.
Proof.
  intros Hi. unfold array_set.
  by destruct (Nat.ltb_spec i (length array)); [|lia].
Qed.

Lemma array_set_length (array : list jsstring) (v : jsstring) :
  array_set array (length array) v = array ++ [v].
Proof.
  unfold array_set. rewrite Nat.ltb_irrefl, Nat.sub_diag. done.
Qed.

(** What [foundSubsequence] computes for a run that is not at the
    start, when its indices are in range. *)
Lemma foundSubsequence_not_at_start (st : State) (r : Run) :
  atStart r = false →
  aEnd st ≤ aCommon r → bEnd st ≤ bCommon r →
  aCommon r + nCommon r ≤ length (elems aLinesUn) →
  bCommon r + nCommon r ≤ length (elems bLinesUn) →
  step st r
  = let counts :=
      mkCounts (count_a (changeCounts st) + (aCommon r - aEnd st))
               (count_b (changeCounts st) + (bCommon r - bEnd st)) in
    let lines := array st ++ changes st r in
    if nCommon r <=? (if final r then c else c + c) then
      Some (mkState (iPatchMark st)
              (lines ++ commons (nCommon r) (aCommon r) (bCommon r))
              (final r) counts
              (aStart st) (aCommon r + nCommon r)
              (bStart st) (bCommon r + nCommon r))
    else
      let closed :=
        array_set (lines ++ commons c (aCommon r) (bCommon r))
          (iPatchMark st)
          (createPatchMark ext (aStart st) (aCommon r + c)
             (bStart st) (bCommon r + c) options) in
      if final r then
        Some (mkState (iPatchMark st) closed true counts
                (aStart st) (aCommon r + c) (bStart st) (bCommon r + c))
      else
        Some (mkState (length closed)
                (array_set closed (length closed) []
                   ++ commons c (aCommon r + nCommon r - c)
                        (bCommon r + nCommon r - c))
                false counts
                (aCommon r + nCommon r - c) (aCommon r + nCommon r)
                (bCommon r + nCommon r - c) (bCommon r + nCommon r)).
Proof.
  destruct Hconsistent as [HA HB].
  destruct r as [n aC bC]. simpl. intros Hstart HaE HbE HaL HbL.
  unfold foundSubsequence, atStart in *. simpl in Hstart.
  rewrite Hstart.
  rewrite formatDelete_Some, formatInsert_Some by lia. simpl.
  unfold nContextLines2, nContextLines, aLength, bLength, atEnd.
  simpl.
  set (e := (aC + n =? _) && (bC + n =? _)).
  unfold changeLines. simpl. rewrite <- !(assoc_L (++)).
  destruct (Nat.leb_spec n (if e then c else c + c)) as [Hle|Hgt].
  - rewrite formatCommon_Some by lia. simpl.
    by rewrite <- !(assoc_L (++)).
  - assert (c < n) as Hc by (destruct e; lia).
    destruct (Nat.ltb_spec c n) as [_|?]; [|lia].
    rewrite !formatCommon_Some by lia. simpl.
    rewrite <- !(assoc_L (++)).
    by destruct e.
Qed.

(** What [foundSubsequence] computes for a run at the start. *)
Lemma foundSubsequence_at_start (st : State) (n : nat) :
  n ≤ length (elems aLinesUn) →
  n ≤ length (elems bLinesUn) →
  step st (mkRun n 0 0)
  = Some (mkState (iPatchMark st)
            (array st ++ commons (c `min` n) (n - c `min` n) (n - c `min` n))
            (final (mkRun n 0 0)) (changeCounts st)
            (n - c `min` n) n (n - c `min` n) n).
Proof.
  destruct Hconsistent as [HA HB]. intros HnA HnB.
  unfold foundSubsequence, nContextLines. simpl.
  replace (if c <? n then c else n) with (c `min` n)
    by (destruct (Nat.ltb_spec c n); lia).
  rewrite formatCommon_Some by lia. done.
Qed.

(** C1. In windowed mode with [contextLines = c], a common run that does
    not start at index 0 on both sides is handled without failure, and:
    the final run (it ends at both sequence ends) is emitted in full within
    the current window iff its length is at most [c]; an internal run is
    emitted in full within the current window iff its length is at most
    [2c]. Emitted in full ([emitted_in_full]) says that only the preceding
    change lines and the lines of the run are appended, and that the
    placeholder of the window is neither moved nor replaced: no patch mark
    separates the surrounding changes. *)
Theorem common_run_in_full_iff (st : State) (r : Run) :
  atStart r = false →
  iPatchMark st < length (array st) →
  aEnd st ≤ aCommon r → bEnd st ≤ bCommon r →
  aCommon r + nCommon r ≤ length (elems aLinesUn) →
  bCommon r + nCommon r ≤ length (elems bLinesUn) →
  ∃ st', step st r = Some st'
    ∧ (final r = true → (in_full st st' r ↔ nCommon r ≤ c))
    ∧ (final r = false → (in_full st st' r ↔ nCommon r ≤ c + c)).
Proof.
  intros Hstart Hmark HaE HbE HaL HbL.
  rewrite foundSubsequence_not_at_start by done. simpl.
  assert (∀ st',
    (if final r then
       array st' = <[iPatchMark st :=
                       createPatchMark ext (aStart st) (aCommon r + c)
                         (bStart st) (bCommon r + c) options]>
                     (array st ++ changes st r
                        ++ commons c (aCommon r) (bCommon r))
     else iPatchMark st < iPatchMark st') →
    c < nCommon r → ¬ in_full st st' r) as Hno.
  { intros st' Hst' Hc (Harr & Hi & _).
    destruct (final r); [|lia].
    rewrite Hst' in Harr. apply (f_equal length) in Harr.
    rewrite length_insert, !length_app, !length_commonLines in Harr. lia. }
  destruct (Nat.leb_spec (nCommon r) (if final r then c else c + c))
    as [Hle|Hgt].
  - eexists. split; [done|].
    assert (in_full st
              (mkState (iPatchMark st)
                 ((array st ++ changes st r)
                    ++ commons (nCommon r) (aCommon r) (bCommon r))
                 (final r)
                 (mkCounts
                    (count_a (changeCounts st) + (aCommon r - aEnd st))
                    (count_b (changeCounts st) + (bCommon r - bEnd st)))
                 (aStart st) (aCommon r + nCommon r)
                 (bStart st) (bCommon r + nCommon r)) r) as Hfull.
    { unfold emitted_in_full. simpl. by rewrite <- (assoc_L (++)). }
    split; intros Hf; rewrite Hf in Hle; done.
  - destruct (final r) eqn:Hf.
    + eexists. split; [done|]. split; [intros _|done].
      split; [intros Hfull; exfalso|lia].
      revert Hfull. apply Hno; [|done]. simpl.
      rewrite array_set_lt, <- (assoc_L (++)); [done|].
      rewrite !length_app. lia.
    + eexists. split; [done|]. split; [done|intros _].
      split; [intros Hfull; exfalso|lia].
      revert Hfull. apply Hno; [|lia]. simpl.
      rewrite array_set_lt by (rewrite !length_app; lia).
      rewrite length_insert, !length_app. lia.
Qed.

(** C2, amended. In windowed mode with [contextLines = c], a common run
    that does not start at index 0 on both sides and whose length exceeds
    its bound ([c] for the final run, [2c] for an internal run) is handled
    without failure, and ([window_closed]): exactly the first [c] lines of
    the run are emitted as closing context of the current window; the
    placeholder of the window is replaced by the patch mark of
    [(aStart, aEnd, bStart, bEnd)], with [aEnd] and [bEnd] after these [c]
    lines; and, iff the run is not the final run, a new window is opened
    by a new placeholder, with the last [min c count] lines of the run as
    its leading context. *)
Theorem long_run_closes_window (st : State) (r : Run) :
  atStart r = false →
  (if final r then c else c + c) < nCommon r →
  iPatchMark st < length (array st) →
  aEnd st ≤ aCommon r → bEnd st ≤ bCommon r →
  aCommon r + nCommon r ≤ length (elems aLinesUn) →
  bCommon r + nCommon r ≤ length (elems bLinesUn) →
  ∃ st', step st r = Some st' ∧ closes st st' r.
Proof.
  intros Hstart Hlong Hmark HaE HbE HaL HbL.
  rewrite foundSubsequence_not_at_start by done. simpl.
  destruct (Nat.leb_spec (nCommon r) (if final r then c else c + c))
    as [?|_]; [lia|].
  assert (c < nCommon r) as Hc by (destruct (final r); lia).
  assert (iPatchMark st
          < length ((array st ++ changes st r)
                      ++ commons c (aCommon r) (bCommon r))) as Hlt.
  { rewrite !length_app. lia. }
  unfold window_closed. destruct (final r) eqn:Hf.
  - eexists. split; [done|]. simpl.
    by rewrite array_set_lt, <- (assoc_L (++)).
  - eexists. split; [done|]. simpl.
    rewrite array_set_length, array_set_lt by done.
    rewrite Nat.min_l by lia.
    by rewrite <- !(assoc_L (++)).
Qed.

(** C3. In windowed mode with [contextLines = c], a common run of [n]
    lines that starts at index 0 on both sides is handled without failure:
    exactly [min c n] common lines, the last [min c n] lines of the run,
    are appended (to the placeholder alone, when the run is the first call
    and the state is [initial]) as the leading context of the window, and
    the start indices of the window become [n - min c n] on both sides. *)
Theorem run_at_start_leading_context (st : State) (n : nat) :
  n ≤ length (elems aLinesUn) →
  n ≤ length (elems bLinesUn) →
  let nLines := c `min` n in
  length (commons nLines (n - nLines) (n - nLines)) = nLines
  ∧ step st (mkRun n 0 0)
    = Some (mkState (iPatchMark st)
              (array st ++ commons nLines (n - nLines) (n - nLines))
              (final (mkRun n 0 0)) (changeCounts st)
              (n - nLines) n (n - nLines) n).
Proof.
  intros HnA HnB nLines.
  split; [apply length_commonLines|].
  by apply foundSubsequence_at_start.
Qed.

End WindowFacts.

Lemma common_run_in_full_iff_witness :
  ∃ st',
    NoExpand.foundSubsequence Example3.ext Example3.aLines Example3.bLines
      Example3.aLines Example3.bLines Example3.options NoExpand.initial
      (mkRun 2 1 1) = Some st'
    ∧ (atEnd Example3.aLines Example3.bLines (mkRun 2 1 1) = true →
       (emitted_in_full Example3.ext Example3.aLines Example3.bLines
          Example3.aLines Example3.bLines Example3.options
          NoExpand.initial st' (mkRun 2 1 1)
        ↔ 2 ≤ 1))
    ∧ (atEnd Example3.aLines Example3.bLines (mkRun 2 1 1) = false →
       (emitted_in_full Example3.ext Example3.aLines Example3.bLines
          Example3.aLines Example3.bLines Example3.options
          NoExpand.initial st' (mkRun 2 1 1)
        ↔ 2 ≤ 1 + 1)).
Proof.
  apply (common_run_in_full_iff Example3.ext Example3.aLines Example3.bLines
           Example3.aLines Example3.bLines Example3.options).
  - split; reflexivity.
  - reflexivity.
  - simpl. lia.
  - simpl. lia.
  - simpl. lia.
  - simpl. lia.
  - simpl. lia.
Defined.

(** C2, as stated, fails for a run that starts at index 0 on both sides:
    with [c = 1], the run of three common lines at the start of four lines
    exceeds its bound [2c], and neither are its first [c] lines emitted
    nor is a patch mark written. *)
Lemma long_run_at_start_not_closed :
  atStart Example3.run = true
  ∧ (if atEnd Example3.aLines Example3.bLines Example3.run
     then contextLines Example3.options
     else contextLines Example3.options + contextLines Example3.options)
    < nCommon Example3.run
  ∧ ∃ st',
      NoExpand.foundSubsequence Example3.ext Example3.aLines Example3.bLines
        Example3.aLines Example3.bLines Example3.options NoExpand.initial
        Example3.run = Some st'
      ∧ ¬ window_closed Example3.ext Example3.aLines Example3.bLines
            Example3.aLines Example3.bLines Example3.options
            NoExpand.initial st' Example3.run.
Proof.
  split; [reflexivity|]. split; [simpl; lia|].
  eexists. split; [vm_compute; reflexivity|].
  unfold window_closed. simpl. intros [Harr _].
  apply (f_equal length) in Harr. vm_compute in Harr. discriminate.
Qed.

Lemma long_run_closes_window_witness :
  ∃ st',
    NoExpand.foundSubsequence Example3.ext Example3.aLines Example3.bLines
      Example3.aLines Example3.bLines (Sample.options 0 false)
      NoExpand.initial (mkRun 2 1 1) = Some st'
    ∧ window_closed Example3.ext Example3.aLines Example3.bLines
        Example3.aLines Example3.bLines (Sample.options 0 false)
        NoExpand.initial st' (mkRun 2 1 1).
Proof.
  apply (long_run_closes_window Example3.ext Example3.aLines Example3.bLines
           Example3.aLines Example3.bLines (Sample.options 0 false)).
  - split; reflexivity.
  - reflexivity.
  - simpl. lia.
  - simpl. lia.
  - simpl. lia.
  - simpl. lia.
  - simpl. lia.
  - simpl. lia.
Defined.

Lemma run_at_start_leading_context_witness :
  length (commonLines Example3.ext Example3.aLines Example3.bLines
            Example3.bLines Example3.options 1 2 2) = 1
  ∧ NoExpand.foundSubsequence Example3.ext Example3.aLines Example3.bLines
      Example3.aLines Example3.bLines Example3.options NoExpand.initial
      (mkRun 3 0 0)
    = Some (NoExpand.mkState 0
              ([[]] ++ commonLines Example3.ext Example3.aLines
                         Example3.bLines Example3.bLines Example3.options
                         1 2 2)
              false (mkCounts 0 0) 2 3 2 3).
Proof.
  apply (run_at_start_leading_context Example3.ext Example3.aLines
           Example3.bLines Example3.aLines Example3.bLines Example3.options
           (conj eq_refl eq_refl) NoExpand.initial 3).
  - simpl. lia.
  - simpl. lia.
Defined.

(** ** Coverage of an edit script *)

Section ScriptFacts.

Variable ext : Imports.
Variables aLinesUn bLinesUn aLinesIn bLinesIn : LineArray.
Variable options : DiffOptionsNormalized.

Local Abbreviation lenA := (length (elems aLinesUn)).
Local Abbreviation lenB := (length (elems bLinesUn)).
Local Abbreviation render :=
  (render ext aLinesUn bLinesUn aLinesIn bLinesIn options).
Local Abbreviation script := (script aLinesUn bLinesUn).

Lemma render_changeItems (aFrom aTo bFrom bTo : nat) :
  render <$> changeItems aFrom aTo bFrom bTo
  = (deleteLineAt ext aLinesUn aLinesIn options <$> seq aFrom (aTo - aFrom))
    ++ (insertLineAt ext bLinesUn bLinesIn options
          <$> seq bFrom (bTo - bFrom)).
Proof.
  unfold changeItems. by rewrite fmap_app, <- !list_fmap_compose.
Qed.

Lemma render_commonItems (n aIndex bIndex : nat) :
  render <$> commonItems n aIndex bIndex
  = commonLines ext aLinesIn bLinesUn bLinesIn options n aIndex bIndex.
Proof. unfold commonItems. by rewrite <- list_fmap_compose. Qed.

Lemma consumedA_deletes (l : list nat) : consumedA (DeleteLine <$> l) = l.
Proof. induction l as [|i l IH]; [done|]. simpl. by f_equal. Qed.

Lemma consumedA_inserts (l : list nat) : consumedA (InsertLine <$> l) = [].
Proof. by induction l. Qed.

Lemma consumedB_deletes (l : list nat) : consumedB (DeleteLine <$> l) = [].
Proof. by induction l. Qed.

Lemma consumedB_inserts (l : list nat) : consumedB (InsertLine <$> l) = l.
Proof. induction l as [|i l IH]; [done|]. simpl. by f_equal. Qed.

Lemma consumedA_app (l k : list Consumed) :
  consumedA (l ++ k) = consumedA l ++ consumedA k.
Proof. apply bind_app. Qed.

Lemma consumedB_app (l k : list Consumed) :
  consumedB (l ++ k) = consumedB l ++ consumedB k.
Proof. apply bind_app. Qed.

Lemma consumedA_commonItems (n aIndex bIndex : nat) :
  consumedA (commonItems n aIndex bIndex) = seq aIndex n.
Proof.
  unfold commonItems, consumedA. rewrite list_fmap_bind.
  transitivity (seq (aIndex + 0) n); [|by rewrite Nat.add_0_r].
  generalize 0 as j.
  induction n as [|n IH]; intros j; [done|].
  simpl. f_equal. rewrite IH. f_equal. lia.
Qed.

Lemma consumedB_commonItems (n aIndex bIndex : nat) :
  consumedB (commonItems n aIndex bIndex) = seq bIndex n.
Proof.
  unfold commonItems, consumedB. rewrite list_fmap_bind.
  transitivity (seq (bIndex + 0) n); [|by rewrite Nat.add_0_r].
  generalize 0 as j.
  induction n as [|n IH]; intros j; [done|].
  simpl. f_equal. rewrite IH. f_equal. lia.
Qed.

Lemma seq_split (from mid to : nat) :
  from ≤ mid → mid ≤ to →
  seq from (mid - from) ++ seq mid (to - mid) = seq from (to - from).
Proof.
  intros H1 H2. replace (to - from) with ((mid - from) + (to - mid)) by lia.
  rewrite seq_app. do 2 f_equal. lia.
Qed.

Lemma wf_runs_cons (aFrom bFrom : nat) (r : Run) (runs : list Run) :
  wf_runs lenA lenB aFrom bFrom (r :: runs) = true →
  aFrom ≤ aCommon r ∧ bFrom ≤ bCommon r
  ∧ aCommon r + nCommon r ≤ lenA ∧ bCommon r + nCommon r ≤ lenB
  ∧ wf_runs lenA lenB (aCommon r + nCommon r) (bCommon r + nCommon r) runs
    = true.
Proof.
  simpl. rewrite !andb_true_iff, !Nat.leb_le. tauto.
Qed.

Lemma wf_runs_nil (aFrom bFrom : nat) :
  wf_runs lenA lenB aFrom bFrom [] = true → aFrom ≤ lenA ∧ bFrom ≤ lenB.
Proof. simpl. by rewrite andb_true_iff, !Nat.leb_le. Qed.

(** An edit script consumes every index of both sides from its starting
    point on, each exactly once and in order. *)
Lemma script_covers (runs : list Run) (aFrom bFrom : nat) :
  wf_runs lenA lenB aFrom bFrom runs = true →
  consumedA (script aFrom bFrom runs) = seq aFrom (lenA - aFrom)
  ∧ consumedB (script aFrom bFrom runs) = seq bFrom (lenB - bFrom).
Proof.
  revert aFrom bFrom.
  induction runs as [|r runs IH]; intros aFrom bFrom Hwf.
  - simpl. unfold changeItems.
    rewrite consumedA_app, consumedB_app, consumedA_deletes,
      consumedA_inserts, consumedB_deletes, consumedB_inserts.
    by rewrite app_nil_r.
  - apply wf_runs_cons in Hwf as (Ha & Hb & HaL & HbL & Hwf).
    destruct (IH _ _ Hwf) as [IHa IHb].
    simpl. unfold changeItems.
    rewrite !consumedA_app, !consumedB_app, consumedA_deletes,
      consumedA_inserts, consumedB_deletes, consumedB_inserts,
      consumedA_commonItems, consumedB_commonItems, IHa, IHb.
    rewrite app_nil_r. simpl. split.
    + rewrite <- (seq_split aFrom (aCommon r) lenA) by lia.
      rewrite <- (seq_split (aCommon r) (aCommon r + nCommon r) lenA) by lia.
      do 3 f_equal. lia.
    + rewrite <- (seq_split bFrom (bCommon r) lenB) by lia.
      rewrite <- (seq_split (bCommon r) (bCommon r + nCommon r) lenB) by lia.
      do 3 f_equal. lia.
Qed.

End ScriptFacts.

(** ** The whole pass *)

(** A run [r] with [atStart r = true] is [mkRun n 0 0]. *)
Ltac run_at_start r Hstart :=
  destruct r as [? ? ?]; unfold atStart in Hstart;
  cbn [nCommon aCommon bCommon] in *;
  apply andb_true_iff in Hstart as [->%Nat.eqb_eq ->%Nat.eqb_eq].

Section PassFacts.

Variable ext : Imports.
Variables aLinesUn bLinesUn aLinesIn bLinesIn : LineArray.
Variable options : DiffOptionsNormalized.

Local Abbreviation lenA := (length (elems aLinesUn)).
Local Abbreviation lenB := (length (elems bLinesUn)).
Local Abbreviation runs :=
  (diff ext lenA lenB (isCommon aLinesUn bLinesUn)).
Local Abbreviation render :=
  (render ext aLinesUn bLinesUn aLinesIn bLinesIn options).
Local Abbreviation script := (script aLinesUn bLinesUn).
Local Abbreviation stepE :=
  (Expand.foundSubsequence ext aLinesUn bLinesUn aLinesIn bLinesIn options).
Local Abbreviation stepW :=
  (NoExpand.foundSubsequence ext aLinesUn bLinesUn aLinesIn bLinesIn
     options).

Hypothesis Hconsistent : consistent aLinesUn bLinesUn aLinesIn bLinesIn.

Lemma changeItems_nil (aFrom bFrom : nat) :
  changeItems aFrom aFrom bFrom bFrom = [].
Proof. unfold changeItems. by rewrite !Nat.sub_diag. Qed.

Lemma expand_step (st : Expand.State) (r : Run) :
  Expand.aStart st ≤ aCommon r → Expand.bStart st ≤ bCommon r →
  aCommon r + nCommon r ≤ lenA → bCommon r + nCommon r ≤ lenB →
  stepE st r
  = Some (Expand.mkState
            (Expand.array st
               ++ (render <$> changeItems (Expand.aStart st) (aCommon r)
                                (Expand.bStart st) (bCommon r))
               ++ (render <$> commonItems (nCommon r) (aCommon r) (bCommon r)))
            (mkCounts
               (count_a (Expand.changeCounts st)
                + (aCommon r - Expand.aStart st))
               (count_b (Expand.changeCounts st)
                + (bCommon r - Expand.bStart st)))
            (aCommon r + nCommon r) (bCommon r + nCommon r)).
Proof.
  destruct Hconsistent as [HA HB]. destruct r as [n aC bC]. simpl.
  intros Ha Hb HaL HbL.
  rewrite formatDelete_Some, formatInsert_Some by lia. simpl.
  rewrite formatCommon_Some by lia. simpl.
  rewrite render_changeItems, render_commonItems.
  by rewrite <- !(assoc_L (++)).
Qed.

Lemma expand_remaining (st : Expand.State) :
  Expand.aStart st ≤ lenA → Expand.bStart st ≤ lenB →
  Expand.remaining ext aLinesUn bLinesUn aLinesIn bLinesIn options st
  = Some (Expand.mkState
            (Expand.array st
               ++ (render <$> changeItems (Expand.aStart st) lenA
                                (Expand.bStart st) lenB))
            (mkCounts
               (count_a (Expand.changeCounts st) + (lenA - Expand.aStart st))
               (count_b (Expand.changeCounts st) + (lenB - Expand.bStart st)))
            (Expand.aStart st) (Expand.bStart st)).
Proof.
  destruct Hconsistent as [HA HB]. intros Ha Hb. unfold Expand.remaining.
  rewrite formatDelete_Some, formatInsert_Some by lia. simpl.
  by rewrite render_changeItems.
Qed.

(** The expanded pass puts the edit script of the runs. *)
Lemma expand_callbacks (rs : list Run) (st : Expand.State) :
  wf_runs lenA lenB (Expand.aStart st) (Expand.bStart st) rs = true →
  ∃ st',
    run_callbacks stepE st rs
      ≫= Expand.remaining ext aLinesUn bLinesUn aLinesIn bLinesIn options
    = Some st'
    ∧ Expand.array st'
      = Expand.array st
          ++ (render <$> script (Expand.aStart st) (Expand.bStart st) rs).
Proof.
  revert st. induction rs as [|r rs IH]; intros st Hwf.
  - apply wf_runs_nil in Hwf as [Ha Hb]. simpl.
    rewrite expand_remaining by done. by eexists.
  - apply wf_runs_cons in Hwf as (Ha & Hb & HaL & HbL & Hwf).
    simpl. rewrite expand_step by done. simpl.
    match goal with
    | |- context [run_callbacks _ ?st1 rs] =>
        destruct (IH st1 Hwf) as (st' & Hrun & Harr)
    end.
    exists st'. split; [exact Hrun|].
    rewrite Harr. simpl. by rewrite !fmap_app, <- !(assoc_L (++)).
Qed.

Lemma expand_pass_script :
  wf_runs lenA lenB 0 0 runs = true →
  ∃ st,
    Expand.pass ext aLinesUn bLinesUn aLinesIn bLinesIn options = Some st
    ∧ Expand.array st = render <$> script 0 0 runs.
Proof.
  intros Hwf. apply (expand_callbacks runs Expand.initial Hwf).
Qed.

(** One run that windowed mode does not truncate, in both modes. *)
Lemma untruncated_step (stw : NoExpand.State) (ste : Expand.State) (r : Run) :
  one_window aLinesUn bLinesUn stw ste →
  Expand.aStart ste ≤ aCommon r → Expand.bStart ste ≤ bCommon r →
  aCommon r + nCommon r ≤ lenA → bCommon r + nCommon r ≤ lenB →
  untruncated aLinesUn bLinesUn options r = true →
  ∃ stw' ste',
    stepW stw r = Some stw' ∧ stepE ste r = Some ste'
    ∧ one_window aLinesUn bLinesUn stw' ste'
    ∧ Expand.aStart ste' = aCommon r + nCommon r
    ∧ Expand.bStart ste' = bCommon r + nCommon r.
Proof.
  intros (Harr & Hcnt & Hi & HaS & HbS & HaE & HbE & Hend) Ha Hb HaL HbL.
  unfold untruncated. intros Hun%Nat.leb_le.
  rewrite expand_step by done.
  destruct (atStart r) eqn:Hstart.
  - run_at_start r Hstart.
    rewrite foundSubsequence_at_start by (done || lia).
    do 2 eexists. split; [done|]. split; [done|].
    assert (Expand.aStart ste = 0) as -> by lia.
    assert (Expand.bStart ste = 0) as -> by lia.
    rewrite changeItems_nil, render_commonItems, Nat.min_r by done.
    rewrite !Nat.sub_diag, !Nat.add_0_r. simpl.
    unfold one_window. simpl. rewrite Harr, Hcnt.
    split; [|done]. split; [done|].
    split; [by destruct (Expand.changeCounts ste)|].
    repeat (split; [done|]).
    unfold atEnd. simpl. rewrite andb_true_iff, !Nat.eqb_eq. done.
  - rewrite foundSubsequence_not_at_start by (done || lia).
    simpl. destruct (Nat.leb_spec (nCommon r)
                       (if atEnd aLinesUn bLinesUn r
                        then contextLines options
                        else contextLines options + contextLines options))
      as [_|?]; [|lia].
    do 2 eexists. split; [done|]. split; [done|].
    unfold one_window. simpl.
    unfold changeLines. rewrite Harr, Hcnt, HaE, HbE.
    rewrite render_changeItems, render_commonItems.
    split; [|done]. split; [by rewrite <- !(assoc_L (++))|].
    repeat (split; [done|]).
    unfold atEnd. rewrite andb_true_iff, !Nat.eqb_eq. done.
Qed.

Lemma untruncated_callbacks (rs : list Run) (stw : NoExpand.State)
    (ste : Expand.State) :
  one_window aLinesUn bLinesUn stw ste →
  wf_runs lenA lenB (Expand.aStart ste) (Expand.bStart ste) rs = true →
  forallb (untruncated aLinesUn bLinesUn options) rs = true →
  ∃ stw' ste',
    run_callbacks stepW stw rs = Some stw'
    ∧ run_callbacks stepE ste rs = Some ste'
    ∧ one_window aLinesUn bLinesUn stw' ste'
    ∧ Expand.aStart ste' ≤ lenA ∧ Expand.bStart ste' ≤ lenB.
Proof.
  revert stw ste. induction rs as [|r rs IH]; intros stw ste Hone Hwf Hun.
  - apply wf_runs_nil in Hwf as [Ha Hb]. by exists stw, ste.
  - apply wf_runs_cons in Hwf as (Ha & Hb & HaL & HbL & Hwf).
    simpl in Hun. apply andb_true_iff in Hun as [Hr Hun].
    destruct (untruncated_step stw ste r Hone Ha Hb HaL HbL Hr) as
      (stw1 & ste1 & HW & HE & Hone1 & Ha1 & Hb1).
    simpl. rewrite HW, HE. simpl.
    apply IH; [done| |done]. by rewrite Ha1, Hb1.
Qed.

(** When no run is truncated, the windowed pass ends with the lines and
    the change counts of the expanded pass. *)
Lemma untruncated_pass :
  wf_runs lenA lenB 0 0 runs = true →
  forallb (untruncated aLinesUn bLinesUn options) runs = true →
  ∃ stw ste,
    NoExpand.pass ext aLinesUn bLinesUn aLinesIn bLinesIn options = Some stw
    ∧ Expand.pass ext aLinesUn bLinesUn aLinesIn bLinesIn options = Some ste
    ∧ NoExpand.array stw = Expand.array ste
    ∧ NoExpand.changeCounts stw = Expand.changeCounts ste.
Proof.
  destruct Hconsistent as [HA HB]. intros Hwf Hun.
  assert (one_window aLinesUn bLinesUn NoExpand.initial Expand.initial)
    as Hone0 by (unfold one_window; simpl; by repeat split).
  destruct (untruncated_callbacks runs _ _ Hone0 Hwf Hun)
    as (stw & ste & HW & HE & Hone & Ha & Hb).
  destruct Hone as (Harr & Hcnt & Hi & HaS & HbS & HaE & HbE & Hend).
  unfold NoExpand.pass, Expand.pass, NoExpand.aLength, NoExpand.bLength.
  rewrite HW, HE. simpl. rewrite expand_remaining by done.
  unfold NoExpand.remaining, NoExpand.lastPatchMark,
    NoExpand.aLength, NoExpand.bLength.
  destruct (NoExpand.isAtEnd stw) eqn:HatEnd; simpl.
  - destruct Hend as [Ha' Hb']; [done|].
    do 2 eexists. split; [done|]. split; [done|]. simpl.
    rewrite HaS, HbS, HaE, HbE, Ha', Hb', !Nat.eqb_refl. simpl.
    rewrite Harr, Hcnt, changeItems_nil, !Nat.sub_diag, !Nat.add_0_r.
    simpl. rewrite app_nil_r. by destruct (Expand.changeCounts ste).
  - rewrite formatDelete_Some, formatInsert_Some by lia. simpl.
    do 2 eexists. split; [done|]. split; [done|]. simpl.
    rewrite HaS, HbS, !Nat.eqb_refl. simpl.
    by rewrite Harr, Hcnt, HaE, HbE, render_changeItems.
Qed.

(** With [contextLines] at least the length of a side, no run is
    truncated. *)
Lemma long_context_untruncated (rs : list Run) (aFrom bFrom : nat) :
  lenA ≤ contextLines options ∨ lenB ≤ contextLines options →
  wf_runs lenA lenB aFrom bFrom rs = true →
  forallb (untruncated aLinesUn bLinesUn options) rs = true.
Proof.
  intros Hc. revert aFrom bFrom.
  induction rs as [|r rs IH]; intros aFrom bFrom Hwf; [done|].
  apply wf_runs_cons in Hwf as (Ha & Hb & HaL & HbL & Hwf).
  simpl. apply andb_true_iff. split; [|by eapply IH].
  unfold untruncated. apply Nat.leb_le.
  destruct (atStart r), (atEnd aLinesUn bLinesUn r); lia.
Qed.

(** Windowed mode, whatever [contextLines] is, handles every run, and
    keeps its placeholder inside the array. *)
Lemma windowed_step_total (st : NoExpand.State) (r : Run) :
  NoExpand.iPatchMark st < length (NoExpand.array st) →
  NoExpand.aEnd st ≤ aCommon r → NoExpand.bEnd st ≤ bCommon r →
  aCommon r + nCommon r ≤ lenA → bCommon r + nCommon r ≤ lenB →
  ∃ st',
    stepW st r = Some st'
    ∧ NoExpand.iPatchMark st' < length (NoExpand.array st')
    ∧ NoExpand.aEnd st' ≤ aCommon r + nCommon r
    ∧ NoExpand.bEnd st' ≤ bCommon r + nCommon r.
Proof.
  intros Hmark Ha Hb HaL HbL.
  destruct (atStart r) eqn:Hstart.
  - run_at_start r Hstart.
    rewrite foundSubsequence_at_start by (done || lia).
    eexists. split; [done|]. simpl. rewrite length_app. lia.
  - rewrite foundSubsequence_not_at_start by (done || lia). simpl.
    set (lines := NoExpand.array st
                    ++ changeLines ext aLinesUn bLinesUn aLinesIn bLinesIn
                         options st r).
    assert (NoExpand.iPatchMark st < length lines) as Hlines
      by (unfold lines; rewrite length_app; lia).
    destruct (Nat.leb_spec (nCommon r)
                (if atEnd aLinesUn bLinesUn r
                 then contextLines options
                 else contextLines options + contextLines options))
      as [_|Hlong].
    + eexists. split; [done|]. simpl. rewrite length_app. lia.
    + destruct (atEnd aLinesUn bLinesUn r).
      * eexists. split; [done|]. simpl.
        rewrite array_set_lt, length_insert, length_app
          by (rewrite length_app; lia).
        lia.
      * eexists. split; [done|]. simpl.
        rewrite array_set_length, !length_app. simpl. lia.
Qed.

Lemma windowed_callbacks_total (rs : list Run) (st : NoExpand.State)
    (aFrom bFrom : nat) :
  NoExpand.iPatchMark st < length (NoExpand.array st) →
  NoExpand.aEnd st ≤ aFrom → NoExpand.bEnd st ≤ bFrom →
  wf_runs lenA lenB aFrom bFrom rs = true →
  ∃ st',
    run_callbacks stepW st rs = Some st'
    ∧ NoExpand.aEnd st' ≤ lenA ∧ NoExpand.bEnd st' ≤ lenB.
Proof.
  revert st aFrom bFrom.
  induction rs as [|r rs IH]; intros st aFrom bFrom Hmark HaE HbE Hwf.
  - apply wf_runs_nil in Hwf as [Ha Hb]. exists st. simpl.
    split; [done|]. lia.
  - apply wf_runs_cons in Hwf as (Ha & Hb & HaL & HbL & Hwf).
    destruct (windowed_step_total st r)
      as (st1 & Hstep & Hmark1 & Ha1 & Hb1); [done|lia..|].
    simpl. rewrite Hstep. simpl. by eapply IH.
Qed.

(** Every call that an oracle with runs in range and in order makes
    finds the state as the theorems on one run assume it. *)
Lemma every_callback_in_range (rs1 rs2 : list Run) (r : Run)
    (st : NoExpand.State) (aFrom bFrom : nat) :
  NoExpand.iPatchMark st < length (NoExpand.array st) →
  NoExpand.aEnd st ≤ aFrom → NoExpand.bEnd st ≤ bFrom →
  wf_runs lenA lenB aFrom bFrom (rs1 ++ r :: rs2) = true →
  ∃ st',
    run_callbacks stepW st rs1 = Some st'
    ∧ NoExpand.iPatchMark st' < length (NoExpand.array st')
    ∧ NoExpand.aEnd st' ≤ aCommon r ∧ NoExpand.bEnd st' ≤ bCommon r
    ∧ aCommon r + nCommon r ≤ lenA ∧ bCommon r + nCommon r ≤ lenB.
Proof.
  revert st aFrom bFrom.
  induction rs1 as [|r1 rs1 IH]; intros st aFrom bFrom Hmark HaE HbE Hwf;
    apply wf_runs_cons in Hwf as (Ha & Hb & HaL & HbL & Hwf).
  - exists st. simpl. split; [done|]. split; [done|]. lia.
  - destruct (windowed_step_total st r1)
      as (st1 & Hstep & Hmark1 & Ha1 & Hb1); [done|lia..|].
    simpl. rewrite Hstep. simpl. by eapply IH.
Qed.

Lemma windowed_pass_total :
  wf_runs lenA lenB 0 0 runs = true →
  is_Some (NoExpand.diffNoExpand ext aLinesUn bLinesUn aLinesIn bLinesIn
             options).
Proof.
  destruct Hconsistent as [HA HB]. intros Hwf.
  destruct (windowed_callbacks_total runs NoExpand.initial 0 0
              (Nat.lt_0_succ 0) (Nat.le_refl 0) (Nat.le_refl 0) Hwf)
    as (st & Hrun & Ha & Hb).
  unfold NoExpand.diffNoExpand, NoExpand.pass, NoExpand.aLength,
    NoExpand.bLength.
  rewrite Hrun. simpl. unfold NoExpand.remaining.
  destruct (NoExpand.isAtEnd st); simpl; [done|].
  unfold NoExpand.aLength, NoExpand.bLength.
  rewrite formatDelete_Some, formatInsert_Some by lia. done.
Qed.

Lemma expand_pass_total :
  wf_runs lenA lenB 0 0 runs = true →
  is_Some (Expand.diffExpand ext aLinesUn bLinesUn aLinesIn bLinesIn options).
Proof.
  intros Hwf. destruct (expand_pass_script Hwf) as (st & Hpass & _).
  unfold Expand.diffExpand. by rewrite Hpass.
Qed.

(** C4. Across one full pass, when the runs of the oracle are in range
    and in order: in expanded mode, and in windowed mode whenever no
    common run is truncated, the pass ends without failure and its lines
    are the renderings of a list of items (delete, insert and common
    lines) that consumes every index of side A in [0, lenA) exactly once,
    in order, as a delete or common line, and every index of side B in
    [0, lenB) exactly once, in order, as an insert or common line. *)
Theorem every_index_consumed_once :
  wf_runs lenA lenB 0 0 runs = true →
  (∃ st items,
     Expand.pass ext aLinesUn bLinesUn aLinesIn bLinesIn options = Some st
     ∧ Expand.array st = render <$> items
     ∧ consumedA items = seq 0 lenA ∧ consumedB items = seq 0 lenB)
  ∧ (forallb (untruncated aLinesUn bLinesUn options) runs = true →
     ∃ st items,
       NoExpand.pass ext aLinesUn bLinesUn aLinesIn bLinesIn options = Some st
       ∧ NoExpand.array st = render <$> items
       ∧ consumedA items = seq 0 lenA ∧ consumedB items = seq 0 lenB).
Proof.
  intros Hwf.
  destruct (expand_pass_script Hwf) as (ste & HE & Harr).
  destruct (script_covers aLinesUn bLinesUn runs 0 0 Hwf) as [HcA HcB].
  rewrite Nat.sub_0_r in HcA, HcB.
  split.
  - by exists ste, (script 0 0 runs).
  - intros Hun.
    destruct (untruncated_pass Hwf Hun) as (stw & ste' & HW & HE' & Heq & _).
    assert (ste' = ste) as -> by congruence.
    exists stw, (script 0 0 runs). by rewrite Heq.
Qed.

(** C5. When the runs of the oracle are in range and in order and
    [contextLines = max lenA lenB], the windowed output and the expanded
    output are the same string: the annotation of the same change counts,
    followed by the same lines, each the rendering of a delete, insert or
    common line, with no placeholder and no patch mark among them. *)
Theorem long_context_same_as_expand :
  wf_runs lenA lenB 0 0 runs = true →
  contextLines options = lenA `max` lenB →
  ∃ out counts items,
    NoExpand.diffNoExpand ext aLinesUn bLinesUn aLinesIn bLinesIn options
    = Some out
    ∧ Expand.diffExpand ext aLinesUn bLinesUn aLinesIn bLinesIn options
      = Some out
    ∧ out = printAnnotation ext options counts
              ++ join_newline (render <$> items).
Proof.
  intros Hwf Hc.
  assert (forallb (untruncated aLinesUn bLinesUn options) runs = true)
    as Hun by (eapply long_context_untruncated; [lia|done]).
  destruct (untruncated_pass Hwf Hun) as (stw & ste & HW & HE & Harr & Hcnt).
  destruct (expand_pass_script Hwf) as (ste' & HE' & Hscript).
  assert (ste' = ste) as -> by congruence.
  eexists _, (Expand.changeCounts ste), (script 0 0 runs).
  unfold NoExpand.diffNoExpand, Expand.diffExpand.
  rewrite HW, HE. simpl. rewrite Harr, Hcnt, Hscript. done.
Qed.

(** C10. When the oracle reports no common run, the windowed output, for
    any [contextLines], is the annotation of the change counts
    [a = lenA], [b = lenB], followed by the [lenA] delete lines of side A
    in order and then the [lenB] insert lines of side B in order; the
    placeholder is deleted and no patch mark is written. *)
Theorem no_common_run :
  runs = [] →
  let deletes := deleteLineAt ext aLinesUn aLinesIn options <$> seq 0 lenA in
  let inserts := insertLineAt ext bLinesUn bLinesIn options <$> seq 0 lenB in
  length deletes = lenA ∧ length inserts = lenB
  ∧ (∃ st,
       NoExpand.pass ext aLinesUn bLinesUn aLinesIn bLinesIn options = Some st
       ∧ NoExpand.array st = deletes ++ inserts
       ∧ NoExpand.changeCounts st = mkCounts lenA lenB)
  ∧ NoExpand.diffNoExpand ext aLinesUn bLinesUn aLinesIn bLinesIn options
    = Some (printAnnotation ext options (mkCounts lenA lenB)
              ++ join_newline (deletes ++ inserts)).
Proof.
  destruct Hconsistent as [HA HB]. intros Hruns deletes inserts.
  assert (NoExpand.pass ext aLinesUn bLinesUn aLinesIn bLinesIn options
          = Some (NoExpand.mkState 0 (deletes ++ inserts) false
                    (mkCounts lenA lenB) 0 lenA 0 lenB)) as Hpass.
  { unfold NoExpand.pass, NoExpand.aLength, NoExpand.bLength.
    rewrite Hruns. simpl.
    unfold NoExpand.remaining, NoExpand.aLength, NoExpand.bLength. simpl.
    rewrite formatDelete_Some, formatInsert_Some by lia. simpl.
    unfold NoExpand.lastPatchMark, NoExpand.aLength, NoExpand.bLength.
    simpl. rewrite !Nat.eqb_refl, !Nat.sub_0_r. done. }
  split; [unfold deletes; by rewrite length_fmap, length_seq|].
  split; [unfold inserts; by rewrite length_fmap, length_seq|].
  split; [by eexists|].
  unfold NoExpand.diffNoExpand. by rewrite Hpass.
Qed.

End PassFacts.

Lemma no_common_run_witness :
  let deletes :=
    deleteLineAt Example1.ext Example1.aLines Example1.aLines
      Example1.options <$> seq 0 1 in
  let inserts :=
    insertLineAt Example1.ext Example1.bLines Example1.bLines
      Example1.options <$> seq 0 1 in
  length deletes = 1 ∧ length inserts = 1
  ∧ (∃ st,
       NoExpand.pass Example1.ext Example1.aLines Example1.bLines
         Example1.aLines Example1.bLines Example1.options = Some st
       ∧ NoExpand.array st = deletes ++ inserts
       ∧ NoExpand.changeCounts st = mkCounts 1 1)
  ∧ NoExpand.diffNoExpand Example1.ext Example1.aLines Example1.bLines
      Example1.aLines Example1.bLines Example1.options
    = Some (printAnnotation Example1.ext Example1.options (mkCounts 1 1)
              ++ join_newline (deletes ++ inserts)).
Proof.
  apply (no_common_run Example1.ext Example1.aLines Example1.bLines
           Example1.aLines Example1.bLines Example1.options
           (conj eq_refl eq_refl)).
  reflexivity.
Defined.

Lemma every_index_consumed_once_witness :
  (∃ st items,
     Expand.pass Example3.ext Example3.aLines Example3.bLines
       Example3.aLines Example3.bLines (Sample.options 3 false) = Some st
     ∧ Expand.array st
       = render Example3.ext Example3.aLines Example3.bLines
           Example3.aLines Example3.bLines (Sample.options 3 false)
           <$> items
     ∧ consumedA items = seq 0 4 ∧ consumedB items = seq 0 4)
  ∧ (forallb (untruncated Example3.aLines Example3.bLines
                (Sample.options 3 false)) [Example3.run] = true →
     ∃ st items,
       NoExpand.pass Example3.ext Example3.aLines Example3.bLines
         Example3.aLines Example3.bLines (Sample.options 3 false) = Some st
       ∧ NoExpand.array st
         = render Example3.ext Example3.aLines Example3.bLines
             Example3.aLines Example3.bLines (Sample.options 3 false)
             <$> items
       ∧ consumedA items = seq 0 4 ∧ consumedB items = seq 0 4).
Proof.
  apply (every_index_consumed_once Example3.ext Example3.aLines
           Example3.bLines Example3.aLines Example3.bLines
           (Sample.options 3 false) (conj eq_refl eq_refl)).
  reflexivity.
Defined.

Lemma long_context_same_as_expand_witness :
  ∃ out counts items,
    NoExpand.diffNoExpand Example3.ext Example3.aLines Example3.bLines
      Example3.aLines Example3.bLines (Sample.options 4 false) = Some out
    ∧ Expand.diffExpand Example3.ext Example3.aLines Example3.bLines
        Example3.aLines Example3.bLines (Sample.options 4 false) = Some out
    ∧ out = printAnnotation Example3.ext (Sample.options 4 false) counts
              ++ join_newline
                   (render Example3.ext Example3.aLines Example3.bLines
                      Example3.aLines Example3.bLines
                      (Sample.options 4 false) <$> items).
Proof.
  apply (long_context_same_as_expand Example3.ext Example3.aLines
           Example3.bLines Example3.aLines Example3.bLines
           (Sample.options 4 false) (conj eq_refl eq_refl)).
  - reflexivity.
  - reflexivity.
Defined.

(** ** The default export *)

(** The arrays that the default export hands to the assemblers agree on
    their lengths, side by side. *)
Lemma lineArrays_consistent (a b : jsstring) (original : option Original) :
  let '(aLinesUn, bLinesUn, aLinesIn, bLinesIn) := lineArrays a b original in
  consistent aLinesUn bLinesUn aLinesIn bLinesIn.
Proof.
  unfold lineArrays, consistent. destruct original as [o|]; [|done].
  cbn [elems].
  destruct (Nat.eqb_spec (length (split_newline a))
              (length (split_newline (original_a o))));
    destruct (Nat.eqb_spec (length (split_newline b))
                (length (split_newline (original_b o)))); by simpl.
Qed.

(** C8. When an [original] pair is supplied and, on either side, the
    number of lines of the original text differs from the number of lines
    of the comparison text, the entry point takes the two
    indentation-preserving arrays both as the comparison basis and as the
    display basis (the same array object on each side, so that only
    trailing spaces are highlighted) and, when the texts differ, hands
    them to the assembler; and, the runs of the oracle on these arrays
    being in range and in order, it does not fail. *)
Theorem inconsistent_original_falls_back (ext : Imports) (a b : jsstring)
    (options : DiffOptionsNormalized) (o : Original) :
  let aLinesIn := mkLines 2 (split_newline (original_a o)) in
  let bLinesIn := mkLines 3 (split_newline (original_b o)) in
  length (split_newline a) ≠ length (split_newline (original_a o))
  ∨ length (split_newline b) ≠ length (split_newline (original_b o)) →
  wf_runs (length (elems aLinesIn)) (length (elems bLinesIn)) 0 0
    (diff ext (length (elems aLinesIn)) (length (elems bLinesIn))
       (isCommon aLinesIn bLinesIn)) = true →
  lineArrays a b (Some o) = (aLinesIn, bLinesIn, aLinesIn, bLinesIn)
  ∧ is_Some (diffLines ext a b options (Some o))
  ∧ (a ≠ b →
     diffLines ext a b options (Some o)
     = if expand options
       then Expand.diffExpand ext aLinesIn bLinesIn aLinesIn bLinesIn options
       else NoExpand.diffNoExpand ext aLinesIn bLinesIn aLinesIn bLinesIn
              options).
Proof.
  intros aLinesIn bLinesIn Hlen Hwf.
  assert (lineArrays a b (Some o) = (aLinesIn, bLinesIn, aLinesIn, bLinesIn))
    as Harrays.
  { unfold lineArrays. cbn [elems].
    destruct (Nat.eqb_spec (length (split_newline a))
                (length (split_newline (original_a o))));
      destruct (Nat.eqb_spec (length (split_newline b))
                  (length (split_newline (original_b o))));
      simpl; try done.
    by destruct Hlen. }
  split; [done|]. unfold diffLines. rewrite Harrays.
  destruct (decide (a = b)) as [Hab|Hab].
  - rewrite bool_decide_eq_true_2 by done. by split.
  - rewrite bool_decide_eq_false_2 by done. split; [|done].
    destruct (expand options).
    + by apply expand_pass_total.
    + by apply windowed_pass_total.
Qed.

Lemma inconsistent_original_falls_back_witness :
  let a := js "x
y" in
  let b := js "z" in
  let o := mkOriginal (js "  x") (js "z") in
  let options := Sample.options 5 false in
  let aLinesIn := mkLines 2 (split_newline (original_a o)) in
  let bLinesIn := mkLines 3 (split_newline (original_b o)) in
  lineArrays a b (Some o) = (aLinesIn, bLinesIn, aLinesIn, bLinesIn)
  ∧ is_Some (diffLines Example1.ext a b options (Some o))
  ∧ (a ≠ b →
     diffLines Example1.ext a b options (Some o)
     = if expand options
       then Expand.diffExpand Example1.ext aLinesIn bLinesIn aLinesIn
              bLinesIn options
       else NoExpand.diffNoExpand Example1.ext aLinesIn bLinesIn aLinesIn
              bLinesIn options).
Proof.
  apply (inconsistent_original_falls_back Example1.ext (js "x
y") (js "z") (Sample.options 5 false) (mkOriginal (js "  x") (js "z"))).
  - left. vm_compute. lia.
  - reflexivity.
Defined.

(** C9. For every string [x], every options value and every [original],
    the entry point called with expected = actual = [x] returns the
    no-differences sentinel; the result does not depend on the oracle, on
    the printers or on the styles that [ext] provides. *)
Theorem diffLines_identical (ext : Imports) (x : jsstring)
    (options : DiffOptionsNormalized) (original : option Original) :
  diffLines ext x x options original = Some (NO_DIFF_MESSAGE ext).
Proof. unfold diffLines. by rewrite bool_decide_eq_true_2. Qed.

(** ** Regular expressions of the highlighters *)

Section RegexFacts.

Local Abbreviation space := (fun ch => is_space ch = true).
Local Abbreviation plain := (fun ch : char => ch ≠ DOLLAR).

Lemma take_consumed (u v : jsstring) :
  take (length (u ++ v) - length v) (u ++ v) = u.
Proof.
  rewrite length_app, Nat.add_sub. by rewrite take_app_length.
Qed.

Lemma RepeatMatcher_S (fuel : nat) (m : Matcher) (parens : list nat)
    (min : nat) (x : MatchState) (c : Continuation) :
  RepeatMatcher (S fuel) m parens min x c
  = let d : Continuation := fun y =>
      if (min =? 0) && (length (rest y) =? length (rest x)) then None
      else RepeatMatcher fuel m parens (pred min) y c in
    let xr := mkMatchState (rest x) (clear_captures parens (captures x)) in
    if min =? 0 then
      match m xr d with
      | Some z => Some z
      | None => c x
      end
    else m xr d.
Proof. reflexivity. Qed.

Lemma char_matcher_cons (p : char → bool) (ch : char) (t : jsstring)
    (caps : list (option jsstring)) (c : Continuation) :
  char_matcher p (mkMatchState (ch :: t) caps) c
  = if p ch then c (mkMatchState t caps) else None.
Proof. reflexivity. Qed.

Lemma length_cons_neqb (ch : char) (t : jsstring) :
  (length t =? length (ch :: t)) = false.
Proof. apply Nat.eqb_neq. simpl. lia. Qed.

(** [\s+] before [$], on a run of spaces that ends the input. *)
Lemma spaces_to_end (L : nat) (ws : jsstring) (caps : list (option jsstring))
    (fuel min : nat) :
  Forall space ws → min ≤ length ws → length ws < fuel →
  RepeatMatcher fuel (char_matcher is_space) [] min (mkMatchState ws caps)
    (fun y => compile L AssertEnd y Some)
  = Some (mkMatchState [] caps).
Proof.
  revert fuel min.
  induction ws as [|w ws IH]; intros fuel min Hws Hmin Hfuel;
    (destruct fuel as [|fuel]; [simpl in Hfuel; lia|]).
  - simpl in Hmin. by replace min with 0 by lia.
  - inversion_clear Hws as [|? ? Hw Hws']. simpl in Hmin, Hfuel.
    rewrite RepeatMatcher_S. cbn zeta. cbn [rest captures clear_captures foldr].
    rewrite char_matcher_cons, Hw. cbn [rest].
    rewrite length_cons_neqb, andb_false_r, IH by (done || lia).
    by destruct (min =? 0).
Qed.

(** [\s+] before [$], on a run of spaces that a non-space follows. *)
Lemma spaces_not_to_end (L : nat) (ws : jsstring) (x : char) (t : jsstring)
    (caps : list (option jsstring)) (fuel min : nat) :
  Forall space ws → is_space x = false → length ws < fuel →
  RepeatMatcher fuel (char_matcher is_space) [] min
    (mkMatchState (ws ++ x :: t) caps) (fun y => compile L AssertEnd y Some)
  = None.
Proof.
  intros Hws Hx. revert fuel min.
  induction Hws as [|w ws Hw Hws IH]; intros fuel min Hfuel;
    (destruct fuel as [|fuel]; [simpl in Hfuel; lia|]);
    rewrite RepeatMatcher_S; cbn zeta;
    cbn [rest captures clear_captures foldr app];
    rewrite char_matcher_cons.
  - rewrite Hx. by destruct (min =? 0).
  - rewrite Hw. cbn [rest]. simpl in Hfuel.
    rewrite length_cons_neqb, andb_false_r, IH by lia.
    by destruct (min =? 0).
Qed.

(** Whatever is before a non-space starts with a run of spaces and a
    non-space. *)
Lemma leading_run (u : jsstring) (x : char) (t : jsstring) :
  is_space x = false →
  ∃ ws y t', u ++ x :: t = ws ++ y :: t' ∧ Forall space ws
             ∧ is_space y = false.
Proof.
  intros Hx. induction u as [|a u (ws & y & t' & Heq & Hws & Hy)].
  - by exists [], x, t.
  - destruct (is_space a) eqn:Ha.
    + exists (a :: ws), y, t'. simpl. rewrite Heq.
      split; [done|]. split; [by constructor|done].
    + by exists [], a, (u ++ x :: t).
Qed.

Lemma exec_from_cons (m : Matcher) (n position : nat) (a : char)
    (s : jsstring) :
  exec_from m n position (a :: s)
  = match m (mkMatchState (a :: s) (replicate n None)) Some with
    | Some y => Some (position, y)
    | None => exec_from m n (S position) s
    end.
Proof. reflexivity. Qed.

Lemma compile_trailing (L : nat) (s : jsstring)
    (caps : list (option jsstring)) :
  compile L reTrailingSpaces (mkMatchState s caps) Some
  = RepeatMatcher (S (length s + 1)) (char_matcher is_space) [] 1
      (mkMatchState s caps) (fun y => compile L AssertEnd y Some).
Proof. reflexivity. Qed.

Lemma trailing_no_match_before (L : nat) (u : jsstring) (x : char)
    (t : jsstring) (position : nat) :
  is_space x = false →
  exec_from (compile L reTrailingSpaces) 0 position (u ++ x :: t)
  = exec_from (compile L reTrailingSpaces) 0 (position + length u + 1) t.
Proof.
  intros Hx. revert position.
  induction u as [|a u IH]; intros position.
  - cbn [app]. rewrite exec_from_cons, compile_trailing.
    rewrite (spaces_not_to_end L [] x t) by (done || simpl; lia).
    f_equal. simpl. lia.
  - destruct (leading_run (a :: u) x t Hx) as (ws & y & t' & Heq & Hws & Hy).
    cbn [app] in *. rewrite exec_from_cons, compile_trailing.
    rewrite Heq, spaces_not_to_end
      by (done || rewrite length_app; simpl; lia).
    rewrite IH. f_equal. simpl. lia.
Qed.

Lemma trailing_match (L : nat) (ws : jsstring) (position : nat) :
  Forall space ws → ws ≠ [] →
  exec_from (compile L reTrailingSpaces) 0 position ws
  = Some (position, mkMatchState [] []).
Proof.
  intros Hws Hne. destruct ws as [|w ws]; [done|].
  rewrite exec_from_cons, compile_trailing.
  rewrite spaces_to_end; [done|done|simpl; lia..].
Qed.

(** A template without [$] is copied. *)
Lemma GetSubstitution_plain (matched str : jsstring) (position : nat)
    (caps : list (option jsstring)) (o t : jsstring) :
  Forall plain o →
  GetSubstitution matched str position caps (o ++ t)
  = o ++ GetSubstitution matched str position caps t.
Proof.
  induction 1 as [|ch o Hch Ho IH]; [done|].
  simpl. apply N.eqb_neq in Hch. rewrite Hch. simpl. by rewrite IH.
Qed.

Lemma GetSubstitution_plain_end (matched str : jsstring) (position : nat)
    (caps : list (option jsstring)) (o : jsstring) :
  Forall plain o →
  GetSubstitution matched str position caps o = o.
Proof.
  intros Ho. rewrite <- (app_nil_r o) at 1.
  rewrite GetSubstitution_plain by done. simpl. apply app_nil_r.
Qed.

(** The template [bgColor('$&')] of a style that wraps in [o] and [c]. *)
Lemma GetSubstitution_wrapped_match (matched str : jsstring) (position : nat)
    (caps : list (option jsstring)) (o c : jsstring) :
  Forall plain o → Forall plain c →
  GetSubstitution matched str position caps (o ++ js "$&" ++ c)
  = o ++ matched ++ c.
Proof.
  intros Ho Hc. rewrite GetSubstitution_plain by done.
  change (js "$&" ++ c) with (DOLLAR :: AMPERSAND :: c).
  cbn [GetSubstitution]. simpl.
  by rewrite GetSubstitution_plain_end.
Qed.

(** [/\s+$/] matches the spaces that end the input, and only them. *)
Lemma exec_trailing (pre ws : jsstring) :
  pre = [] ∨ (∃ u x, pre = u ++ [x] ∧ is_space x = false) →
  Forall space ws →
  exec reTrailingSpaces (pre ++ ws)
  = match ws with
    | [] => None
    | _ :: _ => Some (length pre, mkMatchState [] [])
    end.
Proof.
  intros Hpre Hws. unfold exec.
  change (length (groups reTrailingSpaces)) with 0.
  assert (exec_from (compile (length (pre ++ ws)) reTrailingSpaces) 0 0
            (pre ++ ws)
          = exec_from (compile (length (pre ++ ws)) reTrailingSpaces) 0
              (length pre) ws) as ->.
  { destruct Hpre as [->|(u & x & -> & Hx)]; [done|].
    rewrite <- (assoc_L (++)). cbn [app].
    rewrite trailing_no_match_before by done.
    f_equal. rewrite length_app. simpl. lia. }
  destruct ws as [|w ws]; [done|]. by rewrite trailing_match.
Qed.

(** *** [/^(\s\s)*(\s)(?=[^\s])/] *)

Local Abbreviation pair := (Group 1 (Seq CharSpace CharSpace)).
Local Abbreviation single :=
  (Seq (Group 2 CharSpace) (Lookahead CharNotSpace)).

(** What follows the leading run of spaces: nothing, or a non-space. *)
Local Abbreviation no_space_ahead :=
  (fun tl : jsstring =>
     match tl with [] => True | y :: _ => is_space y = false end).

Lemma compile_pair (L : nat) (s : jsstring) (c1 c2 : option jsstring)
    (k : Continuation) :
  compile L pair (mkMatchState s [c1; c2]) k
  = match s with
    | s1 :: s2 :: s' =>
        if is_space s1 && is_space s2
        then k (mkMatchState s' [Some [s1; s2]; c2])
        else None
    | _ => None
    end.
Proof.
  destruct s as [|s1 [|s2 s']]; cbn [compile]; rewrite ?char_matcher_cons.
  - done.
  - by destruct (is_space s1).
  - destruct (is_space s1); [|done]. cbn [rest captures].
    destruct (is_space s2); [|done].
    cbn [rest captures andb].
    change (s1 :: s2 :: s') with ([s1; s2] ++ s').
    by rewrite take_consumed.
Qed.

Lemma compile_single (L : nat) (s : jsstring) (c1 c2 : option jsstring) :
  compile L single (mkMatchState s [c1; c2]) Some
  = match s with
    | s1 :: y :: t =>
        if is_space s1 && negb (is_space y)
        then Some (mkMatchState (y :: t) [c1; Some [s1]])
        else None
    | _ => None
    end.
Proof.
  destruct s as [|s1 [|y t]]; cbn [compile]; rewrite ?char_matcher_cons.
  - done.
  - by destruct (is_space s1).
  - destruct (is_space s1); [|done]. cbn [rest captures andb].
    change (s1 :: y :: t) with ([s1] ++ y :: t).
    rewrite take_consumed, char_matcher_cons. by destruct (is_space y).
Qed.

(** [(\s\s)*(\s)(?=[^\s])] on a leading run of spaces [ws]. *)
Lemma odd_run (L : nat) (n : nat) (ws tl : jsstring)
    (c1 c2 : option jsstring) (fuel : nat) :
  length ws ≤ n → Forall space ws → no_space_ahead tl → length ws < fuel →
  RepeatMatcher fuel (compile L pair) [1] 0 (mkMatchState (ws ++ tl) [c1; c2])
    (fun y => compile L single y Some)
  = match tl with
    | [] => None
    | _ :: _ => mkMatchState tl <$> odd_run_captures c1 ws
    end.
Proof.
  revert ws c1 c2 fuel.
  induction n as [|n IH]; intros ws c1 c2 fuel Hn Hws Htl Hfuel;
    (destruct fuel as [|fuel]; [lia|]);
    rewrite RepeatMatcher_S; cbn zeta;
    cbn [rest captures clear_captures foldr pred Nat.eqb andb];
    change (<[0:=None]> [c1; c2]) with [@None jsstring; c2];
    rewrite compile_pair, compile_single.
  - destruct ws; [|simpl in Hn; lia]. cbn [app odd_run_captures].
    destruct tl as [|y [|y' t]]; [done|..]; simpl in Htl; rewrite ?Htl;
      done.
  - destruct ws as [|s1 [|s2 ws]].
    + cbn [app odd_run_captures].
      destruct tl as [|y [|y' t]]; [done|..]; simpl in Htl; rewrite ?Htl;
        done.
    + inversion_clear Hws as [|? ? Hs1 _]. cbn [app odd_run_captures].
      destruct tl as [|y t]; [done|]. simpl in Htl. rewrite Hs1, Htl.
      by destruct t.
    + inversion_clear Hws as [|? ? Hs1 Hws']. inversion_clear Hws' as [|? ? Hs2 Hws].
      cbn [app odd_run_captures length] in *. rewrite Hs1, Hs2.
      cbn [andb rest negb].
      replace (length (ws ++ tl) =? S (S (length (ws ++ tl)))) with false
        by (symmetry; apply Nat.eqb_neq; lia).
      rewrite IH by (done || lia).
      destruct tl as [|y t]; [by destruct ws|].
      destruct (odd_run_captures (Some [s1; s2]) ws); [done|].
      by destruct ws.
Qed.

Lemma compile_odd_leading (L : nat) (s : jsstring) (c1 c2 : option jsstring) :
  compile L reOddLeadingSpaces (mkMatchState s [c1; c2]) Some
  = if length s =? L
    then RepeatMatcher (S (length s + 0)) (compile L pair) [1] 0
           (mkMatchState s [c1; c2]) (fun y => compile L single y Some)
    else None.
Proof. reflexivity. Qed.

Lemma odd_leading_only_at_start (L : nat) (s : jsstring) (position : nat) :
  length s < L →
  exec_from (compile L reOddLeadingSpaces) 2 position s = None.
Proof.
  revert position. induction s as [|a s IH]; intros position Hs.
  - cbn [exec_from replicate]. rewrite compile_odd_leading.
    by replace (length [] =? L) with false
      by (symmetry; apply Nat.eqb_neq; simpl in *; lia).
  - rewrite exec_from_cons. cbn [replicate]. rewrite compile_odd_leading.
    replace (length (a :: s) =? L) with false
      by (symmetry; apply Nat.eqb_neq; lia).
    apply IH. simpl in Hs. lia.
Qed.

(** The pattern matches at index 0 or nowhere: exactly when the leading
    run of spaces has odd length and a non-space follows it. *)
Lemma exec_odd_leading (ws tl : jsstring) :
  Forall space ws → no_space_ahead tl →
  exec reOddLeadingSpaces (ws ++ tl)
  = match tl with
    | [] => None
    | _ :: _ => (fun caps => (0, mkMatchState tl caps))
                  <$> odd_run_captures None ws
    end.
Proof.
  intros Hws Htl. unfold exec.
  change (length (groups reOddLeadingSpaces)) with 2.
  assert (compile (length (ws ++ tl)) reOddLeadingSpaces
            (mkMatchState (ws ++ tl) [None; None]) Some
          = match tl with
            | [] => None
            | _ :: _ => mkMatchState tl <$> odd_run_captures None ws
            end) as Hat0.
  { rewrite compile_odd_leading, Nat.eqb_refl.
    apply (odd_run _ (length ws)); [done..|]. rewrite length_app. lia. }
  destruct (ws ++ tl) as [|a s] eqn:Hs.
  - cbn [exec_from replicate]. rewrite Hat0.
    destruct tl; [done|]. by destruct ws.
  - rewrite exec_from_cons. cbn [replicate]. rewrite Hat0.
    rewrite odd_leading_only_at_start by (simpl; lia).
    destruct tl; [done|].
    by destruct (odd_run_captures None ws).
Qed.

Lemma odd_run_captures_even (c1 : option jsstring) (k : nat) (ws : jsstring) :
  length ws = 2 * k → odd_run_captures c1 ws = None.
Proof.
  revert c1 ws. induction k as [|k IH]; intros c1 ws Hlen.
  - by destruct ws.
  - destruct ws as [|s1 [|s2 ws]]; simpl in Hlen; [lia..|].
    cbn [odd_run_captures]. apply IH. lia.
Qed.

Lemma odd_run_captures_odd (c1 : option jsstring) (k : nat)
    (front : jsstring) (s1 s2 s : char) :
  length front = 2 * k →
  odd_run_captures c1 (front ++ [s1; s2; s])
  = Some [Some [s1; s2]; Some [s]].
Proof.
  revert c1 front. induction k as [|k IH]; intros c1 front Hlen.
  - by destruct front.
  - destruct front as [|f1 [|f2 front]]; simpl in Hlen; [lia..|].
    cbn [app odd_run_captures].
    destruct (front ++ [s1; s2; s]) eqn:Hfront.
    { by destruct front. }
    rewrite <- Hfront. apply IH. lia.
Qed.

(** The template ['$1' + bgColor('$2')] of a style that wraps in [o] and
    [c], with two captures. *)
Lemma GetSubstitution_wrapped_group (matched str : jsstring) (position : nat)
    (c1 : option jsstring) (s2 o c : jsstring) :
  Forall plain o → Forall plain c →
  GetSubstitution matched str position [c1; Some s2]
    (js "$1" ++ o ++ js "$2" ++ c)
  = default [] c1 ++ o ++ s2 ++ c.
Proof.
  intros Ho Hc.
  assert (∀ d t,
    (d = 49 ∨ d = 50)%N →
    GetSubstitution matched str position [c1; Some s2] (DOLLAR :: d :: t)
    = default [] (mjoin ([c1; Some s2] !! pred (digit_value d)))
        ++ GetSubstitution matched str position [c1; Some s2] t) as Hdigit.
  { intros d t Hd. cbn [GetSubstitution].
    assert (∀ d2, is_digit d2 && (10 * digit_value d + digit_value d2 <=? 2)
                  = false) as Htwo.
    { intros d2. apply andb_false_iff. right. apply Nat.leb_gt.
      destruct Hd as [-> | ->]; vm_compute digit_value at 1; lia. }
    destruct Hd as [-> | ->]; destruct t as [|d2 t];
      cbn [length]; rewrite ?Htwo; reflexivity. }
  change (js "$1" ++ o ++ js "$2" ++ c)
    with (DOLLAR :: 49%N :: o ++ js "$2" ++ c).
  rewrite Hdigit by (by left).
  rewrite GetSubstitution_plain by done.
  change (js "$2" ++ c) with (DOLLAR :: 50%N :: c).
  rewrite Hdigit by (by right).
  rewrite GetSubstitution_plain_end by done.
  by destruct c1.
Qed.

Lemma odd_run_captures_shape (n : nat) (c1 : option jsstring)
    (ws : jsstring) (caps : list (option jsstring)) :
  length ws ≤ n →
  odd_run_captures c1 ws = Some caps →
  ∃ cap1 s, caps = [cap1; Some [s]].
Proof.
  revert c1 ws. induction n as [|n IH]; intros c1 ws Hn Hcaps.
  - destruct ws; [done|]. simpl in Hn. lia.
  - destruct ws as [|s1 [|s2 ws]]; [done|..].
    + injection Hcaps as <-. by eexists _, _.
    + cbn [odd_run_captures] in Hcaps. eapply IH; [|done]. simpl in Hn. lia.
Qed.

End RegexFacts.

(** ** Whitespace highlighters *)

Section HighlightFacts.

Local Abbreviation space := (fun ch => is_space ch = true).
Local Abbreviation plain := (fun ch : char => ch ≠ DOLLAR).

(** A style that wraps what it is given in [o] and [c], as the styles of
    [chalk] do with the two templates of this module. *)
Variable bgColor : Chalk.
Variables o c : jsstring.
Hypothesis Hmatch : bgColor (js "$&") = o ++ js "$&" ++ c.
Hypothesis Hgroup : bgColor (js "$2") = o ++ js "$2" ++ c.
Hypothesis Ho : Forall plain o.
Hypothesis Hc : Forall plain c.

(** The trailing run of spaces of a line, and nothing else, is wrapped. *)
Lemma highlightTrailingSpaces_wraps (pre ws : jsstring) :
  pre = [] ∨ (∃ u x, pre = u ++ [x] ∧ is_space x = false) →
  Forall space ws →
  highlightTrailingSpaces (pre ++ ws) bgColor = pre ++ wrap o c ws.
Proof.
  intros Hpre Hws. unfold highlightTrailingSpaces, replace.
  rewrite exec_trailing by done.
  destruct ws as [|w ws]; [done|]. cbn [rest captures wrap].
  rewrite Hmatch, GetSubstitution_wrapped_match by done.
  rewrite Nat.sub_0_r, take_app_length, drop_app_length.
  by rewrite length_app, Nat.add_sub', firstn_all, app_nil_r.
Qed.

(** The replacement of the odd leading run: the spaces that end the
    run are kept as far as [$1] and [$2] hold them. *)
Lemma replace_odd_leading (lead : jsstring) (x : char) (t : jsstring) :
  Forall space lead → is_space x = false →
  replace (lead ++ x :: t) reOddLeadingSpaces (js "$1" ++ bgColor (js "$2"))
  = match odd_run_captures None lead with
    | None => lead ++ x :: t
    | Some caps =>
        default [] (mjoin (caps !! 0)) ++ o
          ++ default [] (mjoin (caps !! 1)) ++ c ++ x :: t
    end.
Proof.
  intros Hlead Hx. unfold replace.
  rewrite exec_odd_leading by done.
  destruct (odd_run_captures None lead) as [caps|] eqn:Hcaps; [|done].
  destruct (odd_run_captures_shape _ _ _ _ (Nat.le_refl _) Hcaps)
    as (cap1 & s & ->).
  cbn [fmap option_fmap option_map rest captures].
  rewrite Hgroup, GetSubstitution_wrapped_group by done.
  cbn [take lookup list_lookup mjoin option_join default app].
  by rewrite <- !(assoc_L (++)).
Qed.

(** A line with a non-space character: [lead] and [trail] are its
    leading and trailing runs of spaces. *)
Lemma highlightLeadingTrailingSpaces_text (lead b trail : jsstring)
    (x y : char) (u : jsstring) :
  Forall space lead → Forall space trail →
  is_space x = false → is_space y = false →
  x :: b = u ++ [y] →
  highlightLeadingTrailingSpaces (lead ++ (x :: b) ++ trail) bgColor
  = match odd_run_captures None lead with
    | None => lead
    | Some caps =>
        default [] (mjoin (caps !! 0)) ++ o
          ++ default [] (mjoin (caps !! 1)) ++ c
    end ++ (x :: b) ++ wrap o c trail.
Proof.
  intros Hlead Htrail Hx Hy Hbody. unfold highlightLeadingTrailingSpaces.
  rewrite (assoc_L (++)), highlightTrailingSpaces_wraps; [|right|done].
  2:{ exists (lead ++ u), y. by rewrite Hbody, (assoc_L (++)). }
  rewrite <- (assoc_L (++)). cbn [app].
  rewrite replace_odd_leading by done.
  destruct (odd_run_captures None lead); [|done].
  by rewrite <- !(assoc_L (++)).
Qed.

(** An even number of leading spaces, zero among them: none is
    wrapped. *)
Lemma even_leading_spaces (k : nat) (lead b trail : jsstring)
    (x y : char) (u : jsstring) :
  length lead = 2 * k →
  Forall space lead → Forall space trail →
  is_space x = false → is_space y = false →
  x :: b = u ++ [y] →
  highlightLeadingTrailingSpaces (lead ++ (x :: b) ++ trail) bgColor
  = lead ++ (x :: b) ++ wrap o c trail.
Proof.
  intros Hlen **.
  erewrite highlightLeadingTrailingSpaces_text by done.
  by rewrite (odd_run_captures_even _ k).
Qed.

(** One leading space: it is wrapped. *)
Lemma one_leading_space (s : char) (b trail : jsstring)
    (x y : char) (u : jsstring) :
  is_space s = true → Forall space trail →
  is_space x = false → is_space y = false →
  x :: b = u ++ [y] →
  highlightLeadingTrailingSpaces ([s] ++ (x :: b) ++ trail) bgColor
  = (o ++ [s] ++ c) ++ (x :: b) ++ wrap o c trail.
Proof.
  intros Hs **.
  erewrite highlightLeadingTrailingSpaces_text; [|by repeat constructor|done..].
  done.
Qed.

(** An odd number of leading spaces, three or more: the last is wrapped,
    the two before it are kept, and those before these two, [front], are
    lost. *)
Lemma odd_leading_spaces (k : nat) (front : jsstring) (s1 s2 s : char)
    (b trail : jsstring) (x y : char) (u : jsstring) :
  length front = 2 * k →
  Forall space (front ++ [s1; s2; s]) → Forall space trail →
  is_space x = false → is_space y = false →
  x :: b = u ++ [y] →
  highlightLeadingTrailingSpaces
    ((front ++ [s1; s2; s]) ++ (x :: b) ++ trail) bgColor
  = ([s1; s2] ++ o ++ [s] ++ c) ++ (x :: b) ++ wrap o c trail.
Proof.
  intros Hlen **.
  erewrite highlightLeadingTrailingSpaces_text by done.
  by rewrite (odd_run_captures_odd _ k).
Qed.

(** A line of spaces only, under a style whose opening sequence, if it
    has one, does not start with a space: the whole line is wrapped,
    once. *)
Lemma highlightLeadingTrailingSpaces_blank (ws : jsstring) :
  o = [] ∧ c = [] ∨ (∃ ch o', o = ch :: o' ∧ is_space ch = false) →
  Forall space ws →
  highlightLeadingTrailingSpaces ws bgColor = wrap o c ws.
Proof.
  intros Hopen Hws. unfold highlightLeadingTrailingSpaces.
  rewrite <- (app_nil_l ws) at 1.
  rewrite highlightTrailingSpaces_wraps, app_nil_l; [|by left|done].
  destruct ws as [|w ws]; [done|]. cbn [wrap].
  destruct Hopen as [[Eo Ec]|(ch & o' & Eo & Hch)].
  - rewrite Eo, Ec, app_nil_l, app_nil_r.
    unfold replace.
    rewrite <- (app_nil_r (w :: ws)) at 1.
    by rewrite exec_odd_leading.
  - rewrite Eo at 1.
    change ((ch :: o') ++ (w :: ws) ++ c)
      with ([] ++ ch :: o' ++ (w :: ws) ++ c).
    rewrite replace_odd_leading by done.
    cbn [odd_run_captures app]. by rewrite Eo.
Qed.

End HighlightFacts.

(** C6, at a line with five leading spaces. The claim wraps the fifth
    space and keeps the four before it; the code wraps the fifth space and
    keeps only the two before it, because [$1] holds the last iteration
    of the repeated group [(\s\s)], not all of them. *)
Theorem five_leading_spaces_lose_two :
  highlightLeadingTrailingSpaces (js "     x  ") Sample.brackets
  = js "  [ ]x[  ]"
  ∧ highlightLeadingTrailingSpaces (js "     x  ") Sample.brackets
    ≠ js "    [ ]x[  ]".
Proof. split; [by vm_compute|]. vm_compute. discriminate. Qed.

(** The same, through the default export: with an [original] pair the
    delete line of a text with five leading spaces shows three. *)
Example five_leading_spaces_in_a_diff :
  diffLines Example1.ext (js "     x") (js "y") (Sample.options 5 true)
    (Some (mkOriginal (js "     x") (js "y")))
  = Some (js "- 1 + 1
-   [ ]x
+ y").
Proof. by vm_compute. Qed.

(** The lemmas on styles that wrap, at the style of the examples. *)
Example three_leading_spaces :
  highlightLeadingTrailingSpaces (js "   x y ") Sample.brackets
  = js "  [ ]x y[ ]".
Proof.
  apply (odd_leading_spaces Sample.brackets (js "[") (js "]")
           eq_refl eq_refl ltac:(by repeat constructor)
           ltac:(by repeat constructor) 0 [] 32%N 32%N 32%N
           (js " y") (js " ") 120%N 121%N (js "x "));
    by repeat constructor.
Qed.

Example four_leading_spaces :
  highlightLeadingTrailingSpaces (js "    x") Sample.brackets = js "    x".
Proof. by vm_compute. Qed.

Example only_spaces :
  highlightLeadingTrailingSpaces (js "   ") Sample.brackets = js "[   ]".
Proof. by vm_compute. Qed.

(** ** The scenario of three lines *)

Example foo_bar_baz :
  diffLines (Sample.imports (Sample.replay [mkRun 1 0 0; mkRun 1 2 2]))
    (js "foo
bar
baz") (js "foo
BAR
baz") (Sample.options 1 false) None
  = Some (js "- 1 + 1
  foo
- bar
+ BAR
  baz").
Proof. by vm_compute. Qed.

Example foo_bar_baz_without_context :
  diffLines (Sample.imports (Sample.replay [mkRun 1 0 0; mkRun 1 2 2]))
    (js "foo
bar
baz") (js "foo
BAR
baz") (Sample.options 0 false) None
  = Some (js "- 1 + 1
@@ -2,1 +2,1 @@
- bar
+ BAR").
Proof. by vm_compute. Qed.

(** * Further properties *)

(** ** Range formatters *)

Section FormatterProperties.

Variable ext : Imports.
Variable options : DiffOptionsNormalized.

Lemma mapM_app_Some (f : nat → option jsstring) (l k : list nat) :
  mapM f (l ++ k) = (l1 ← mapM f l; l2 ← mapM f k; Some (l1 ++ l2)).
Proof.
  induction l as [|i l IH]; simpl.
  - by destruct (mapM f k).
  - destruct (f i); [|done]. simpl. rewrite IH.
    destruct (mapM f l); [|done]. simpl. by destruct (mapM f k).
Qed.

(** X1. [formatDelete] returns lines exactly when the interval is empty
    ([aStart = aEnd], wherever it lies) or is a proper interval inside
    both arrays; it throws when [aEnd < aStart] and when an index of the
    interval is missing from [aLinesUn] or from [aLinesIn]. When it
    returns, it returns one line for each index. *)
Theorem formatDelete_succeeds_iff (aLinesUn aLinesIn : LineArray)
    (aStart aEnd : nat) :
  (is_Some (formatDelete ext aStart aEnd aLinesUn aLinesIn options)
   ↔ aStart = aEnd
     ∨ (aStart < aEnd ∧ aEnd ≤ length (elems aLinesUn)
        ∧ aEnd ≤ length (elems aLinesIn)))
  ∧ ∀ lines,
      formatDelete ext aStart aEnd aLinesUn aLinesIn options = Some lines →
      length lines = aEnd - aStart.
Proof.
  unfold formatDelete. split.
  - destruct (Nat.ltb_spec aEnd aStart) as [Hlt|Hle].
    + split; [by intros []|lia].
    + rewrite mapM_is_Some, Forall_seq. split.
      * intros Hall. destruct (decide (aStart = aEnd)) as [|Hne]; [by left|].
        right. destruct (Hall (aEnd - 1)) as [line Hline]; [lia|].
        simpl in Hline.
        destruct (elems aLinesUn !! (aEnd - 1)) eqn:HUn; [|done].
        destruct (elems aLinesIn !! (aEnd - 1)) eqn:HIn; [|done].
        apply lookup_lt_Some in HUn, HIn. lia.
      * intros [->|(Hlt & HUn & HIn)] j Hj; [lia|]. simpl.
        destruct (lookup_lt_is_Some_2 (elems aLinesUn) j) as [? ->]; [lia|].
        destruct (lookup_lt_is_Some_2 (elems aLinesIn) j) as [? ->]; [lia|].
        by eexists.
  - intros lines. destruct (aEnd <? aStart); [done|].
    intros Hlines%length_mapM. by rewrite <- Hlines, length_seq.
Qed.

(** X2. The insert lines of an interval are the insert lines of its
    first part followed by those of its second part, and [formatInsert]
    throws on the interval exactly when it throws on one of the parts. *)
Theorem formatInsert_splits (bLinesUn bLinesIn : LineArray)
    (bStart bMid bEnd : nat) :
  bStart ≤ bMid → bMid ≤ bEnd →
  formatInsert ext bStart bEnd bLinesUn bLinesIn options
  = (first ← formatInsert ext bStart bMid bLinesUn bLinesIn options;
     second ← formatInsert ext bMid bEnd bLinesUn bLinesIn options;
     Some (first ++ second)).
Proof.
  intros H1 H2. unfold formatInsert.
  destruct (Nat.ltb_spec bEnd bStart) as [?|_]; [lia|].
  destruct (Nat.ltb_spec bMid bStart) as [?|_]; [lia|].
  destruct (Nat.ltb_spec bEnd bMid) as [?|_]; [lia|].
  replace (bEnd - bStart) with ((bMid - bStart) + (bEnd - bMid)) by lia.
  rewrite seq_app, mapM_app_Some.
  by replace (bStart + (bMid - bStart)) with bMid by lia.
Qed.

Lemma formatCommon_splits (aLinesIn bLinesUn bLinesIn : LineArray)
    (n m aIndex bIndex : nat) :
  formatCommon ext (n + m) aIndex bIndex aLinesIn bLinesUn bLinesIn options
  = (first ← formatCommon ext n aIndex bIndex aLinesIn bLinesUn bLinesIn
               options;
     second ← formatCommon ext m (aIndex + n) (bIndex + n)
                aLinesIn bLinesUn bLinesIn options;
     Some (first ++ second)).
Proof.
  revert aIndex bIndex. induction n as [|n IH]; intros aIndex bIndex.
  - cbn [Nat.add formatCommon]. rewrite !Nat.add_0_r. simpl.
    by destruct (formatCommon ext m aIndex bIndex aLinesIn bLinesUn bLinesIn
                   options).
  - cbn [Nat.add formatCommon].
    destruct (elems bLinesUn !! bIndex); [|done].
    destruct (elems bLinesIn !! bIndex); [|done].
    destruct (elems aLinesIn !! aIndex); [|done].
    cbn [mbind option_bind]. rewrite IH.
    replace (S aIndex + n) with (aIndex + S n) by lia.
    replace (S bIndex + n) with (bIndex + S n) by lia.
    destruct (formatCommon ext n (S aIndex) (S bIndex) aLinesIn bLinesUn
                bLinesIn options); [|done].
    cbn [mbind option_bind].
    by destruct (formatCommon ext m (aIndex + S n) (bIndex + S n) aLinesIn
                   bLinesUn bLinesIn options).
Qed.

(** X3. The context lines that windowed mode keeps of a common run are
    lines of the whole run: when [formatCommon] returns the lines [full]
    of a run of [n] index pairs, then for [k ≤ n] it returns their first
    [k] for the first [k] pairs and their last [k] for the last [k]
    pairs. *)
Theorem formatCommon_context (aLinesIn bLinesUn bLinesIn : LineArray)
    (n k aIndex bIndex : nat) (full : list jsstring) :
  k ≤ n →
  formatCommon ext n aIndex bIndex aLinesIn bLinesUn bLinesIn options
  = Some full →
  formatCommon ext k aIndex bIndex aLinesIn bLinesUn bLinesIn options
  = Some (take k full)
  ∧ formatCommon ext k (aIndex + n - k) (bIndex + n - k)
      aLinesIn bLinesUn bLinesIn options
    = Some (drop (n - k) full).
Proof.
  intros Hk Hfull.
  assert (∀ i j a b first second,
    formatCommon ext i a b aLinesIn bLinesUn bLinesIn options = Some first →
    formatCommon ext (i + j) a b aLinesIn bLinesUn bLinesIn options
    = Some second →
    first = take i second
    ∧ formatCommon ext j (a + i) (b + i) aLinesIn bLinesUn bLinesIn options
      = Some (drop i second)) as Hparts.
  { intros i j a b first second Hfirst. rewrite formatCommon_splits, Hfirst.
    simpl.
    destruct (formatCommon ext j (a + i) (b + i) aLinesIn bLinesUn bLinesIn
                options) as [rest|]; [|done].
    intros [= <-].
    assert (length first = i) as <-.
    { clear -Hfirst. revert a b first Hfirst.
      induction i as [|i IH]; intros a b first; simpl.
      - by intros [= <-].
      - destruct (elems bLinesUn !! b); [|done].
        destruct (elems bLinesIn !! b); [|done].
        destruct (elems aLinesIn !! a); [|done]. simpl.
        destruct (formatCommon ext i (S a) (S b) aLinesIn bLinesUn bLinesIn
                    options) as [l|] eqn:Hl; [|done].
        intros [= <-]. simpl. f_equal. by eapply IH. }
    by rewrite take_app_length, drop_app_length. }
  split.
  - replace n with (k + (n - k)) in Hfull by lia.
    rewrite formatCommon_splits in Hfull.
    destruct (formatCommon ext k aIndex bIndex aLinesIn bLinesUn bLinesIn
                options) as [first|] eqn:Hfirst; [|done].
    f_equal.
    eapply (Hparts k (n - k) aIndex bIndex first full Hfirst).
    rewrite formatCommon_splits, Hfirst. exact Hfull.
  - replace n with ((n - k) + k) in Hfull by lia.
    pose proof Hfull as Hfull'. rewrite formatCommon_splits in Hfull'.
    destruct (formatCommon ext (n - k) aIndex bIndex aLinesIn bLinesUn
                bLinesIn options) as [first|] eqn:Hfirst; [|done].
    destruct (Hparts (n - k) k aIndex bIndex first full Hfirst Hfull)
      as [_ Hlast].
    replace (aIndex + n - k) with (aIndex + (n - k)) by lia.
    replace (bIndex + n - k) with (bIndex + (n - k)) by lia.
    done.
Qed.

Lemma slice0_indentation (indent un : jsstring) :
  slice0 (indent ++ un)
    (Z.of_nat (length (indent ++ un)) - Z.of_nat (length un))
  = indent.
Proof.
  unfold slice0. rewrite length_app.
  destruct (Z.ltb_spec (Z.of_nat (length indent + length un)
                        - Z.of_nat (length un)) 0) as [?|_]; [lia|].
  replace (Z.to_nat (Z.of_nat (length indent + length un)
                     - Z.of_nat (length un)))
    with (length indent) by lia.
  apply take_app_length.
Qed.

Lemma slice0_short (line un : jsstring) :
  length line < length un →
  slice0 line (Z.of_nat (length line) - Z.of_nat (length un))
  = take (2 * length line - length un) line.
Proof.
  intros Hshort. unfold slice0.
  destruct (Z.ltb_spec (Z.of_nat (length line) - Z.of_nat (length un)) 0)
    as [_|?]; [|lia].
  f_equal. lia.
Qed.

(** X4. Where the indentation-preserving line is the comparison line
    after some indentation, the delete line shows the indicator, a space,
    that indentation, and the comparison line with its spaces
    highlighted, all in the color of side A. *)
Theorem formatDelete_shows_indentation (aLinesUn aLinesIn : LineArray)
    (aStart aEnd : nat) :
  aStart ≤ aEnd →
  aEnd ≤ length (elems aLinesUn) →
  aEnd ≤ length (elems aLinesIn) →
  ∃ lines,
    formatDelete ext aStart aEnd aLinesUn aLinesIn options = Some lines
    ∧ ∀ aIndex indentation aLineUn,
        aStart ≤ aIndex < aEnd →
        elems aLinesUn !! aIndex = Some aLineUn →
        elems aLinesIn !! aIndex = Some (indentation ++ aLineUn) →
        lines !! (aIndex - aStart)
        = Some (aColor options
                  (aIndicator options ++ js " " ++ indentation
                     ++ getHighlightSpaces (ref_neq aLinesUn aLinesIn)
                          aLineUn (bgInverse ext))).
Proof.
  intros Hle HUn HIn. eexists. split; [by apply formatDelete_Some|].
  intros aIndex indentation aLineUn Hin HlineUn HlineIn.
  rewrite list_lookup_fmap.
  rewrite (proj2 (lookup_seq aStart (aEnd - aStart) (aIndex - aStart) aIndex))
    by lia.
  simpl. unfold deleteLineAt, deleteLine. f_equal.
  rewrite (list_lookup_total_correct _ _ _ HlineUn).
  rewrite (list_lookup_total_correct _ _ _ HlineIn).
  by rewrite slice0_indentation.
Qed.

(** X5. Where the indentation-preserving line is shorter than the
    comparison line, [formatInsert] does not throw: [slice] counts the
    negative end from the end of the line, and the insert line shows, as
    indentation, the first [2 * |bLineIn| - |bLineUn|] characters of the
    indentation-preserving line (none when that number is not
    positive). *)
Theorem formatInsert_short_indented_line (bLinesUn bLinesIn : LineArray)
    (bStart bEnd : nat) :
  bStart ≤ bEnd →
  bEnd ≤ length (elems bLinesUn) →
  bEnd ≤ length (elems bLinesIn) →
  ∃ lines,
    formatInsert ext bStart bEnd bLinesUn bLinesIn options = Some lines
    ∧ ∀ bIndex bLineUn bLineIn,
        bStart ≤ bIndex < bEnd →
        elems bLinesUn !! bIndex = Some bLineUn →
        elems bLinesIn !! bIndex = Some bLineIn →
        length bLineIn < length bLineUn →
        lines !! (bIndex - bStart)
        = Some (bColor options
                  (bIndicator options ++ js " "
                     ++ take (2 * length bLineIn - length bLineUn) bLineIn
                     ++ getHighlightSpaces (ref_neq bLinesUn bLinesIn)
                          bLineUn (bgInverse ext))).
Proof.
  intros Hle HUn HIn. eexists. split; [by apply formatInsert_Some|].
  intros bIndex bLineUn bLineIn Hin HlineUn HlineIn Hshort.
  rewrite list_lookup_fmap.
  rewrite (proj2 (lookup_seq bStart (bEnd - bStart) (bIndex - bStart) bIndex))
    by lia.
  simpl. unfold insertLineAt, insertLine. f_equal.
  rewrite (list_lookup_total_correct _ _ _ HlineUn).
  rewrite (list_lookup_total_correct _ _ _ HlineIn).
  by rewrite slice0_short.
Qed.

(** X6. Without an [original] pair (the display arrays are the
    comparison arrays themselves), the common lines of index pairs that
    [isCommon] accepts never take the indentation-differs color: each is
    the B-side line with only its trailing spaces highlighted, on
    [bgCommon], after the indicator and a space, in [commonColor]. *)
Theorem formatCommon_without_original (aLines bLines : LineArray)
    (n aIndex bIndex : nat) :
  aIndex + n ≤ length (elems aLines) →
  bIndex + n ≤ length (elems bLines) →
  (∀ k, k < n → isCommon aLines bLines (aIndex + k) (bIndex + k) = true) →
  formatCommon ext n aIndex bIndex aLines bLines bLines options
  = Some ((fun k =>
             commonColor options
               (commonIndicator options ++ js " "
                  ++ highlightTrailingSpaces (elems bLines !!! (bIndex + k))
                       (bgCommon ext)))
            <$> seq 0 n).
Proof.
  intros HA HB Hcommon. rewrite formatCommon_Some by done.
  f_equal. unfold commonLines. apply list_fmap_ext. intros i k Hk.
  apply lookup_seq in Hk as [-> Hk]. simpl.
  specialize (Hcommon i Hk). unfold isCommon in Hcommon.
  apply bool_decide_eq_true in Hcommon.
  rewrite !lookup_total_Some in Hcommon by lia.
  injection Hcommon as Hcommon.
  unfold commonLineAt, commonLine, ref_neq.
  rewrite Hcommon, !Nat.eqb_refl. simpl.
  rewrite Z.sub_diag. done.
Qed.

End FormatterProperties.

Lemma formatInsert_splits_witness :
  formatInsert Example2.ext 0 2 Example2.bLinesUn Example2.bLinesIn
    Example2.options
  = (first ← formatInsert Example2.ext 0 1 Example2.bLinesUn
               Example2.bLinesIn Example2.options;
     second ← formatInsert Example2.ext 1 2 Example2.bLinesUn
                Example2.bLinesIn Example2.options;
     Some (first ++ second)).
Proof.
  apply (formatInsert_splits Example2.ext Example2.options
           Example2.bLinesUn Example2.bLinesIn 0 1 2).
  - lia.
  - lia.
Defined.

Lemma formatCommon_context_witness :
  formatCommon Example3.ext 1 0 0 Example3.aLines Example3.bLines
    Example3.bLines Example3.options
  = Some (take 1 (commonLines Example3.ext Example3.aLines Example3.bLines
                    Example3.bLines Example3.options 3 0 0))
  ∧ formatCommon Example3.ext 1 (0 + 3 - 1) (0 + 3 - 1) Example3.aLines
      Example3.bLines Example3.bLines Example3.options
    = Some (drop (3 - 1)
              (commonLines Example3.ext Example3.aLines Example3.bLines
                 Example3.bLines Example3.options 3 0 0)).
Proof.
  apply (formatCommon_context Example3.ext Example3.options Example3.aLines
           Example3.bLines Example3.bLines 3 1 0 0).
  - lia.
  - reflexivity.
Defined.

Lemma formatDelete_shows_indentation_witness :
  ∃ lines,
    formatDelete Example2.ext 0 2 Example2.aLinesUn Example2.aLinesIn
      Example2.options = Some lines
    ∧ ∀ aIndex indentation aLineUn,
        0 ≤ aIndex < 2 →
        elems Example2.aLinesUn !! aIndex = Some aLineUn →
        elems Example2.aLinesIn !! aIndex = Some (indentation ++ aLineUn) →
        lines !! (aIndex - 0)
        = Some (aColor Example2.options
                  (aIndicator Example2.options ++ js " " ++ indentation
                     ++ getHighlightSpaces
                          (ref_neq Example2.aLinesUn Example2.aLinesIn)
                          aLineUn (bgInverse Example2.ext))).
Proof.
  apply (formatDelete_shows_indentation Example2.ext Example2.options
           Example2.aLinesUn Example2.aLinesIn 0 2).
  - lia.
  - simpl. lia.
  - simpl. lia.
Defined.

Lemma formatInsert_short_indented_line_witness :
  ∃ lines,
    formatInsert Example2.ext 0 2 Example2.bLinesUn Example2.bLinesIn
      Example2.options = Some lines
    ∧ ∀ bIndex bLineUn bLineIn,
        0 ≤ bIndex < 2 →
        elems Example2.bLinesUn !! bIndex = Some bLineUn →
        elems Example2.bLinesIn !! bIndex = Some bLineIn →
        length bLineIn < length bLineUn →
        lines !! (bIndex - 0)
        = Some (bColor Example2.options
                  (bIndicator Example2.options ++ js " "
                     ++ take (2 * length bLineIn - length bLineUn) bLineIn
                     ++ getHighlightSpaces
                          (ref_neq Example2.bLinesUn Example2.bLinesIn)
                          bLineUn (bgInverse Example2.ext))).
Proof.
  apply (formatInsert_short_indented_line Example2.ext Example2.options
           Example2.bLinesUn Example2.bLinesIn 0 2).
  - lia.
  - simpl. lia.
  - simpl. lia.
Defined.

Lemma formatCommon_without_original_witness :
  formatCommon Example3.ext 3 0 0 Example3.aLines Example3.bLines
    Example3.bLines Example3.options
  = Some ((fun k =>
             commonColor Example3.options
               (commonIndicator Example3.options ++ js " "
                  ++ highlightTrailingSpaces
                       (elems Example3.bLines !!! (0 + k))
                       (bgCommon Example3.ext)))
            <$> seq 0 3).
Proof.
  apply (formatCommon_without_original Example3.ext Example3.options
           Example3.aLines Example3.bLines 3 0 0).
  - simpl. lia.
  - simpl. lia.
  - intros k Hk. destruct k as [|[|[|k]]]; [reflexivity..|lia].
Defined.

(** The two edge lines of the formatters, run. *)
Example short_indented_line :
  formatInsert Example2.ext 1 2 Example2.bLinesUn Example2.bLinesIn
    Example2.options
  = Some [js "+ cdcdef"].
Proof. by vm_compute. Qed.

(** ** Whitespace highlighters, on every line *)

Section HighlightProperties.

Local Abbreviation space := (fun ch => is_space ch = true).
Local Abbreviation plain := (fun ch : char => ch ≠ DOLLAR).

(** Every line is a part that is empty or ends with a non-space,
    followed by its trailing run of spaces. *)
Lemma trailing_run (line : jsstring) :
  ∃ pre ws,
    line = pre ++ ws ∧ Forall space ws
    ∧ (pre = [] ∨ ∃ u x, pre = u ++ [x] ∧ is_space x = false).
Proof.
  induction line as [|a line (pre & ws & -> & Hws & Hpre)] using rev_ind.
  - exists [], []. split; [done|]. split; [constructor|by left].
  - destruct (is_space a) eqn:Ha.
    + exists pre, (ws ++ [a]). rewrite (assoc_L (++)).
      split; [done|]. split; [|done].
      apply Forall_app. split; [done|]. by repeat constructor.
    + exists ((pre ++ ws) ++ [a]), []. rewrite app_nil_r.
      split; [done|]. split; [constructor|]. right. by exists (pre ++ ws), a.
Qed.

Variable bgColor : Chalk.
Variables o c : jsstring.
Hypothesis Hmatch : bgColor (js "$&") = o ++ js "$&" ++ c.
Hypothesis Hgroup : bgColor (js "$2") = o ++ js "$2" ++ c.
Hypothesis Ho : Forall plain o.
Hypothesis Hc : Forall plain c.

(** X7. Under a style that wraps in [o] and [c], [highlightTrailingSpaces]
    changes no character of a line and wraps exactly its trailing run of
    spaces: the line is returned unchanged when it does not end with a
    space, and with [o] before and [c] after the whole run of spaces
    that ends it otherwise. *)
Theorem highlightTrailingSpaces_every_line (line : jsstring) :
  ∃ pre ws,
    line = pre ++ ws ∧ Forall space ws
    ∧ (pre = [] ∨ ∃ u x, pre = u ++ [x] ∧ is_space x = false)
    ∧ highlightTrailingSpaces line bgColor = pre ++ wrap o c ws.
Proof.
  destruct (trailing_run line) as (pre & ws & -> & Hws & Hpre).
  exists pre, ws. split; [done|]. split; [done|]. split; [done|].
  by apply highlightTrailingSpaces_wraps.
Qed.

(** X9. A line with a non-space character and an even number of leading
    spaces, none included: [highlightLeadingTrailingSpaces] wraps no
    leading space and changes nothing but the trailing run, which it
    wraps. *)
Theorem leading_pairs_not_highlighted (k : nat) (lead b trail : jsstring)
    (x y : char) (u : jsstring) :
  length lead = 2 * k →
  Forall space lead → Forall space trail →
  is_space x = false → is_space y = false →
  x :: b = u ++ [y] →
  highlightLeadingTrailingSpaces (lead ++ (x :: b) ++ trail) bgColor
  = lead ++ (x :: b) ++ wrap o c trail.
Proof. intros. by eapply even_leading_spaces. Qed.

(** X10. A line of spaces only, under a style without sequences or with
    an opening sequence that does not start with a space:
    [highlightLeadingTrailingSpaces] wraps the whole line, once; the
    empty line stays empty. *)
Theorem blank_line_highlighted_once (ws : jsstring) :
  o = [] ∧ c = [] ∨ (∃ ch o', o = ch :: o' ∧ is_space ch = false) →
  Forall space ws →
  highlightLeadingTrailingSpaces ws bgColor = wrap o c ws.
Proof. intros. by eapply highlightLeadingTrailingSpaces_blank. Qed.

End HighlightProperties.

(** X8. Under a style that returns its argument (colors disabled),
    [highlightTrailingSpaces] returns every line as it is. *)
Theorem highlightTrailingSpaces_without_style (bgColor : Chalk)
    (line : jsstring) :
  bgColor (js "$&") = js "$&" →
  highlightTrailingSpaces line bgColor = line.
Proof.
  intros Hplain.
  destruct (trailing_run line) as (pre & ws & -> & Hws & Hpre).
  rewrite (highlightTrailingSpaces_wraps bgColor [] []);
    [|by rewrite Hplain|constructor..|done|done].
  destruct ws; [done|]. simpl. by rewrite app_nil_r.
Qed.

Lemma highlightTrailingSpaces_every_line_witness :
  ∃ pre ws,
    js "a b  " = pre ++ ws ∧ Forall (fun ch => is_space ch = true) ws
    ∧ (pre = [] ∨ ∃ u x, pre = u ++ [x] ∧ is_space x = false)
    ∧ highlightTrailingSpaces (js "a b  ") Sample.brackets
      = pre ++ wrap (js "[") (js "]") ws.
Proof.
  apply (highlightTrailingSpaces_every_line Sample.brackets (js "[") (js "]")
           eq_refl ltac:(by repeat constructor)
           ltac:(by repeat constructor) (js "a b  ")).
Defined.

Lemma highlightTrailingSpaces_without_style_witness :
  highlightTrailingSpaces (js " a  ") Sample.plain = js " a  ".
Proof.
  apply (highlightTrailingSpaces_without_style Sample.plain (js " a  ")).
  reflexivity.
Defined.

Lemma leading_pairs_not_highlighted_witness :
  highlightLeadingTrailingSpaces
    (js "    " ++ (120%N :: js " y") ++ js "  ") Sample.brackets
  = js "    " ++ (120%N :: js " y") ++ wrap (js "[") (js "]") (js "  ").
Proof.
  apply (leading_pairs_not_highlighted Sample.brackets (js "[") (js "]")
           eq_refl eq_refl ltac:(by repeat constructor)
           ltac:(by repeat constructor) 2 (js "    ") (js " y") (js "  ")
           120%N 121%N (js "x ")).
  - reflexivity.
  - by repeat constructor.
  - by repeat constructor.
  - reflexivity.
  - reflexivity.
  - reflexivity.
Defined.

Lemma blank_line_highlighted_once_witness :
  highlightLeadingTrailingSpaces (js "   ") Sample.brackets
  = wrap (js "[") (js "]") (js "   ").
Proof.
  apply (blank_line_highlighted_once Sample.brackets (js "[") (js "]")
           eq_refl eq_refl ltac:(by repeat constructor)
           ltac:(by repeat constructor) (js "   ")).
  - right. by exists 91%N, [].
  - by repeat constructor.
Defined.

(** ** Change counts *)

Section CountProperties.

Variable ext : Imports.
Variables aLinesUn bLinesUn aLinesIn bLinesIn : LineArray.
Variable options : DiffOptionsNormalized.

Local Abbreviation lenA := (length (elems aLinesUn)).
Local Abbreviation lenB := (length (elems bLinesUn)).
Local Abbreviation runs :=
  (diff ext lenA lenB (isCommon aLinesUn bLinesUn)).
Local Abbreviation render :=
  (render ext aLinesUn bLinesUn aLinesIn bLinesIn options).
Local Abbreviation stepE :=
  (Expand.foundSubsequence ext aLinesUn bLinesUn aLinesIn bLinesIn options).
Local Abbreviation stepW :=
  (NoExpand.foundSubsequence ext aLinesUn bLinesUn aLinesIn bLinesIn
     options).
Local Abbreviation remainingE :=
  (Expand.remaining ext aLinesUn bLinesUn aLinesIn bLinesIn options).
Local Abbreviation remainingW :=
  (NoExpand.remaining ext aLinesUn bLinesUn aLinesIn bLinesIn options).

Hypothesis Hconsistent : consistent aLinesUn bLinesUn aLinesIn bLinesIn.

Lemma length_changeItems (aFrom aTo bFrom bTo : nat) :
  length (render <$> changeItems aFrom aTo bFrom bTo)
  = (aTo - aFrom) + (bTo - bFrom).
Proof.
  unfold changeItems.
  by rewrite length_fmap, length_app, !length_fmap, !length_seq.
Qed.

Lemma length_commonItems (n aIndex bIndex : nat) :
  length (render <$> commonItems n aIndex bIndex) = n.
Proof. unfold commonItems. by rewrite !length_fmap, length_seq. Qed.

Lemma expand_counts (rs : list Run) (st : Expand.State) :
  wf_runs lenA lenB (Expand.aStart st) (Expand.bStart st) rs = true →
  ∃ st',
    run_callbacks stepE st rs ≫= remainingE = Some st'
    ∧ count_a (Expand.changeCounts st') + totalCommon rs + Expand.aStart st
      = count_a (Expand.changeCounts st) + lenA
    ∧ count_b (Expand.changeCounts st') + totalCommon rs + Expand.bStart st
      = count_b (Expand.changeCounts st) + lenB
    ∧ length (Expand.array st') + totalCommon rs
        + Expand.aStart st + Expand.bStart st
      = length (Expand.array st) + lenA + lenB.
Proof.
  revert st. induction rs as [|r rs IH]; intros st Hwf.
  - apply wf_runs_nil in Hwf as [Ha Hb]. simpl.
    rewrite (expand_remaining ext) by done.
    eexists. split; [done|]. simpl.
    rewrite length_app, length_changeItems. lia.
  - apply wf_runs_cons in Hwf as (Ha & Hb & HaL & HbL & Hwf).
    simpl. rewrite (expand_step ext) by done. simpl.
    match goal with
    | |- context [run_callbacks _ ?st1 rs] =>
        destruct (IH st1 Hwf) as (st' & Hrun & HcA & HcB & Hlen)
    end.
    exists st'. split; [exact Hrun|]. simpl in HcA, HcB, Hlen.
    rewrite !length_app, length_changeItems, length_commonItems in Hlen.
    lia.
Qed.

(** X11. In expanded mode, with the runs of the oracle in range and in
    order: the count [a] is the number of lines of side A outside the
    common runs, the count [b] that of side B, and the output has one
    line for each changed line and one for each common pair. *)
Theorem expand_change_counts :
  wf_runs lenA lenB 0 0 runs = true →
  ∃ st,
    Expand.pass ext aLinesUn bLinesUn aLinesIn bLinesIn options = Some st
    ∧ count_a (Expand.changeCounts st) + totalCommon runs = lenA
    ∧ count_b (Expand.changeCounts st) + totalCommon runs = lenB
    ∧ length (Expand.array st)
      = count_a (Expand.changeCounts st) + count_b (Expand.changeCounts st)
        + totalCommon runs.
Proof.
  intros Hwf.
  destruct (expand_counts runs Expand.initial Hwf)
    as (st & Hpass & HcA & HcB & Hlen).
  exists st. split; [exact Hpass|]. simpl in HcA, HcB, Hlen. lia.
Qed.

Lemma windowed_counts (rs : list Run) (st : NoExpand.State) :
  wf_runs lenA lenB (NoExpand.aEnd st) (NoExpand.bEnd st) rs = true →
  positive_runs rs = true →
  (NoExpand.isAtEnd st = true →
   NoExpand.aEnd st = lenA ∧ NoExpand.bEnd st = lenB) →
  ∃ st',
    run_callbacks stepW st rs ≫= remainingW = Some st'
    ∧ count_a (NoExpand.changeCounts st') + totalCommon rs + NoExpand.aEnd st
      = count_a (NoExpand.changeCounts st) + lenA
    ∧ count_b (NoExpand.changeCounts st') + totalCommon rs + NoExpand.bEnd st
      = count_b (NoExpand.changeCounts st) + lenB.
Proof.
  destruct Hconsistent as [HA HB].
  revert st. induction rs as [|r rs IH]; intros st Hwf Hpos Hend.
  - apply wf_runs_nil in Hwf as [Ha Hb]. simpl.
    unfold NoExpand.remaining, NoExpand.aLength, NoExpand.bLength.
    destruct (NoExpand.isAtEnd st) eqn:HatEnd; simpl.
    + destruct Hend as [-> ->]; [done|]. eexists. split; [done|]. lia.
    + rewrite formatDelete_Some, formatInsert_Some by lia. simpl.
      eexists. split; [done|]. simpl. lia.
  - apply wf_runs_cons in Hwf as (Ha & Hb & HaL & HbL & Hwf).
    simpl in Hpos. apply andb_true_iff in Hpos as [Hn%Nat.ltb_lt Hpos].
    assert (∀ st1,
      stepW st r = Some st1 →
      NoExpand.aEnd st1 = aCommon r + nCommon r →
      NoExpand.bEnd st1 = bCommon r + nCommon r →
      NoExpand.isAtEnd st1 = atEnd aLinesUn bLinesUn r →
      count_a (NoExpand.changeCounts st1) + NoExpand.aEnd st
      = count_a (NoExpand.changeCounts st) + aCommon r →
      count_b (NoExpand.changeCounts st1) + NoExpand.bEnd st
      = count_b (NoExpand.changeCounts st) + bCommon r →
      ∃ st',
        run_callbacks stepW st (r :: rs) ≫= remainingW = Some st'
        ∧ count_a (NoExpand.changeCounts st') + totalCommon (r :: rs)
            + NoExpand.aEnd st
          = count_a (NoExpand.changeCounts st) + lenA
        ∧ count_b (NoExpand.changeCounts st') + totalCommon (r :: rs)
            + NoExpand.bEnd st
          = count_b (NoExpand.changeCounts st) + lenB) as Hsynced.
    { intros st1 Hstep HaE HbE HatEnd HcA HcB.
      destruct (IH st1) as (st' & Hrun & HcA' & HcB'); [by rewrite HaE, HbE|done| |].
      { rewrite HatEnd. unfold atEnd.
        rewrite andb_true_iff, !Nat.eqb_eq. lia. }
      exists st'. simpl. rewrite Hstep. simpl.
      split; [exact Hrun|]. lia. }
    destruct (atStart r) eqn:Hstart.
    + run_at_start r Hstart.
      eapply Hsynced;
        [by apply foundSubsequence_at_start; (done || lia)
        |simpl; first [reflexivity | lia]..].
    + pose proof (foundSubsequence_not_at_start ext aLinesUn bLinesUn
                    aLinesIn bLinesIn options (conj HA HB) st r Hstart Ha Hb
                    HaL HbL) as Hstep.
      simpl in Hstep.
      destruct (Nat.leb_spec (nCommon r)
                  (if atEnd aLinesUn bLinesUn r
                   then contextLines options
                   else contextLines options + contextLines options))
        as [_|Hlong].
      * eapply Hsynced; [exact Hstep|simpl; first [reflexivity | lia]..].
      * destruct (atEnd aLinesUn bLinesUn r) eqn:HatEnd.
        -- unfold atEnd in HatEnd.
           apply andb_true_iff in HatEnd as [HeA%Nat.eqb_eq HeB%Nat.eqb_eq].
           destruct rs as [|r' rs].
           ++ simpl. rewrite Hstep. simpl.
              unfold NoExpand.remaining. simpl.
              eexists. split; [done|]. simpl. lia.
           ++ apply wf_runs_cons in Hwf as (Ha' & Hb' & HaL' & HbL' & _).
              simpl in Hpos.
              apply andb_true_iff in Hpos as [Hn'%Nat.ltb_lt _]. lia.
        -- eapply Hsynced; [exact Hstep|simpl; first [reflexivity | lia]..].
Qed.

(** X12. In windowed mode, with the runs of the oracle in range, in
    order and none of them empty: the change counts are those of
    expanded mode, whatever [contextLines] is and whatever common lines
    are left out: [a] counts the lines of side A outside the common runs
    and [b] those of side B. *)
Theorem windowed_change_counts :
  wf_runs lenA lenB 0 0 runs = true →
  positive_runs runs = true →
  ∃ stw ste,
    NoExpand.pass ext aLinesUn bLinesUn aLinesIn bLinesIn options = Some stw
    ∧ Expand.pass ext aLinesUn bLinesUn aLinesIn bLinesIn options = Some ste
    ∧ NoExpand.changeCounts stw = Expand.changeCounts ste
    ∧ count_a (NoExpand.changeCounts stw) + totalCommon runs = lenA
    ∧ count_b (NoExpand.changeCounts stw) + totalCommon runs = lenB.
Proof.
  intros Hwf Hpos.
  destruct (expand_counts runs Expand.initial Hwf)
    as (ste & HE & HeA & HeB & _).
  destruct (windowed_counts runs NoExpand.initial Hwf Hpos)
    as (stw & HW & HwA & HwB); [done|].
  simpl in HeA, HeB, HwA, HwB.
  exists (NoExpand.lastPatchMark ext aLinesUn bLinesUn options stw), ste.
  split.
  { unfold NoExpand.pass, NoExpand.aLength, NoExpand.bLength.
    destruct (run_callbacks stepW NoExpand.initial runs) as [st|]; [|done].
    simpl in HW |- *. by rewrite HW. }
  split; [exact HE|]. simpl.
  split; [|lia].
  destruct (NoExpand.changeCounts stw), (Expand.changeCounts ste).
  simpl in *. f_equal; lia.
Qed.

End CountProperties.

Lemma expand_change_counts_witness :
  ∃ st,
    Expand.pass Example3.ext Example3.aLines Example3.bLines Example3.aLines
      Example3.bLines Example3.options = Some st
    ∧ count_a (Expand.changeCounts st) + totalCommon [Example3.run] = 4
    ∧ count_b (Expand.changeCounts st) + totalCommon [Example3.run] = 4
    ∧ length (Expand.array st)
      = count_a (Expand.changeCounts st) + count_b (Expand.changeCounts st)
        + totalCommon [Example3.run].
Proof.
  apply (expand_change_counts Example3.ext Example3.aLines Example3.bLines
           Example3.aLines Example3.bLines Example3.options
           (conj eq_refl eq_refl)).
  reflexivity.
Defined.

Lemma windowed_change_counts_witness :
  ∃ stw ste,
    NoExpand.pass Example3.ext Example3.aLines Example3.bLines
      Example3.aLines Example3.bLines Example3.options = Some stw
    ∧ Expand.pass Example3.ext Example3.aLines Example3.bLines
        Example3.aLines Example3.bLines Example3.options = Some ste
    ∧ NoExpand.changeCounts stw = Expand.changeCounts ste
    ∧ count_a (NoExpand.changeCounts stw) + totalCommon [Example3.run] = 4
    ∧ count_b (NoExpand.changeCounts stw) + totalCommon [Example3.run] = 4.
Proof.
  apply (windowed_change_counts Example3.ext Example3.aLines Example3.bLines
           Example3.aLines Example3.bLines Example3.options
           (conj eq_refl eq_refl)).
  - reflexivity.
  - reflexivity.
Defined.

(** ** Windows and their patch marks *)

Section WindowProperties.

Variable ext : Imports.
Variables aLinesUn bLinesUn aLinesIn bLinesIn : LineArray.
Variable options : DiffOptionsNormalized.

Local Abbreviation lenA := (length (elems aLinesUn)).
Local Abbreviation lenB := (length (elems bLinesUn)).
Local Abbreviation runs :=
  (diff ext lenA lenB (isCommon aLinesUn bLinesUn)).
Local Abbreviation render :=
  (render ext aLinesUn bLinesUn aLinesIn bLinesIn options).
Local Abbreviation shown :=
  (shows ext aLinesUn bLinesUn aLinesIn bLinesIn options).
Local Abbreviation holds :=
  (window_holds ext aLinesUn bLinesUn aLinesIn bLinesIn options).
Local Abbreviation stepW :=
  (NoExpand.foundSubsequence ext aLinesUn bLinesUn aLinesIn bLinesIn
     options).
Local Abbreviation c := (contextLines options).

Hypothesis Hconsistent : consistent aLinesUn bLinesUn aLinesIn bLinesIn.

Lemma shows_nothing (lines : list jsstring) (aIndex bIndex : nat) :
  shown lines aIndex aIndex bIndex bIndex → lines = [].
Proof.
  intros (items & -> & HA & HB). rewrite Nat.sub_diag in HA, HB.
  destruct items as [|[]]; done.
Qed.

Lemma shows_app (l1 l2 : list jsstring) (a1 a2 a3 b1 b2 b3 : nat) :
  a1 ≤ a2 → a2 ≤ a3 → b1 ≤ b2 → b2 ≤ b3 →
  shown l1 a1 a2 b1 b2 → shown l2 a2 a3 b2 b3 →
  shown (l1 ++ l2) a1 a3 b1 b3.
Proof.
  intros ? ? ? ? (i1 & -> & HA1 & HB1) (i2 & -> & HA2 & HB2).
  exists (i1 ++ i2). rewrite fmap_app, consumedA_app, consumedB_app.
  rewrite HA1, HA2, HB1, HB2, !seq_split by done. done.
Qed.

Lemma shows_changes (aFrom aTo bFrom bTo : nat) :
  shown ((deleteLineAt ext aLinesUn aLinesIn options
            <$> seq aFrom (aTo - aFrom))
         ++ (insertLineAt ext bLinesUn bLinesIn options
               <$> seq bFrom (bTo - bFrom)))
    aFrom aTo bFrom bTo.
Proof.
  exists (changeItems aFrom aTo bFrom bTo).
  rewrite render_changeItems. split; [done|]. unfold changeItems.
  rewrite consumedA_app, consumedB_app, consumedA_deletes, consumedA_inserts,
    consumedB_deletes, consumedB_inserts.
  by rewrite app_nil_r.
Qed.

Lemma shows_commons (n aIndex bIndex aTo bTo : nat) :
  aTo = aIndex + n → bTo = bIndex + n →
  shown (commonLines ext aLinesIn bLinesUn bLinesIn options n aIndex bIndex)
    aIndex aTo bIndex bTo.
Proof.
  intros -> ->. exists (commonItems n aIndex bIndex).
  rewrite render_commonItems, consumedA_commonItems, consumedB_commonItems.
  by rewrite !Nat.add_sub'.
Qed.

(** One call keeps the open window right. *)
Lemma window_step (st : NoExpand.State) (r : Run) :
  holds st →
  NoExpand.aEnd st ≤ aCommon r → NoExpand.bEnd st ≤ bCommon r →
  aCommon r + nCommon r ≤ lenA → bCommon r + nCommon r ≤ lenB →
  ∃ st',
    stepW st r = Some st' ∧ holds st'
    ∧ NoExpand.aEnd st' ≤ aCommon r + nCommon r
    ∧ NoExpand.bEnd st' ≤ bCommon r + nCommon r.
Proof.
  intros (Hmark & Hfirst & HaS & HbS & Hshows) Ha Hb HaL HbL.
  destruct (atStart r) eqn:Hstart.
  - run_at_start r Hstart.
    rewrite foundSubsequence_at_start by (done || lia).
    assert (NoExpand.aEnd st = 0) as HaE by lia.
    assert (NoExpand.bEnd st = 0) as HbE by lia.
    assert (NoExpand.aStart st = 0) as HaS0 by lia.
    assert (NoExpand.bStart st = 0) as HbS0 by lia.
    rewrite HaE, HbE, HaS0, HbS0 in Hshows. apply shows_nothing in Hshows.
    eexists. split; [done|]. split; [|simpl; lia].
    unfold window_holds. simpl.
    rewrite length_app, drop_app_le, Hshows by lia.
    split; [lia|]. split; [lia|]. split; [lia|]. split; [lia|].
    apply shows_commons; lia.
  - rewrite foundSubsequence_not_at_start by (done || lia). simpl.
    set (lines := NoExpand.array st
                    ++ changeLines ext aLinesUn bLinesUn aLinesIn bLinesIn
                         options st r).
    assert (NoExpand.iPatchMark st < length lines) as Hlines
      by (unfold lines; rewrite length_app; lia).
    assert (shown (drop (S (NoExpand.iPatchMark st)) lines)
              (NoExpand.aStart st) (aCommon r)
              (NoExpand.bStart st) (bCommon r)) as Hchanged.
    { unfold lines. rewrite drop_app_le by lia.
      eapply shows_app; [..|exact Hshows|apply shows_changes]; lia. }
    assert (∀ k, k ≤ nCommon r →
      shown (drop (S (NoExpand.iPatchMark st))
               (lines ++ commonLines ext aLinesIn bLinesUn bLinesIn options
                           k (aCommon r) (bCommon r)))
        (NoExpand.aStart st) (aCommon r + k)
        (NoExpand.bStart st) (bCommon r + k)) as Hkept.
    { intros k Hk. rewrite drop_app_le by lia.
      eapply shows_app; [..|exact Hchanged|by apply shows_commons]; lia. }
    destruct (Nat.leb_spec (nCommon r)
                (if atEnd aLinesUn bLinesUn r then c else c + c))
      as [_|Hlong].
    + eexists. split; [done|]. split; [|simpl; lia].
      unfold window_holds. simpl.
      rewrite length_app.
      split; [lia|]. split; [done|]. split; [lia|]. split; [lia|].
      by apply Hkept.
    + assert (c < nCommon r) as Hc
        by (destruct (atEnd aLinesUn bLinesUn r); lia).
      rewrite array_set_lt by (rewrite length_app; lia).
      destruct (atEnd aLinesUn bLinesUn r).
      * eexists. split; [done|]. split; [|simpl; lia].
        unfold window_holds. simpl.
        rewrite length_insert, length_app, drop_insert_lt by lia.
        split; [lia|]. split; [done|]. split; [lia|]. split; [lia|].
        apply Hkept. lia.
      * eexists. split; [done|]. split; [|simpl; lia].
        unfold window_holds. simpl.
        rewrite array_set_length.
        rewrite drop_app_length' by (rewrite length_app; simpl; lia).
        rewrite !length_app. simpl.
        split; [lia|]. split; [lia|]. split; [lia|]. split; [lia|].
        apply shows_commons; lia.
Qed.

Lemma window_initial : holds NoExpand.initial.
Proof.
  unfold window_holds. simpl.
  split; [lia|]. split; [by left|]. split; [lia|]. split; [lia|].
  by exists [].
Qed.

Lemma window_callbacks (rs1 rs2 : list Run) (st : NoExpand.State)
    (aFrom bFrom : nat) :
  holds st →
  NoExpand.aEnd st ≤ aFrom → NoExpand.bEnd st ≤ bFrom →
  wf_runs lenA lenB aFrom bFrom (rs1 ++ rs2) = true →
  ∃ st' aFrom' bFrom',
    run_callbacks stepW st rs1 = Some st' ∧ holds st'
    ∧ NoExpand.aEnd st' ≤ aFrom' ∧ NoExpand.bEnd st' ≤ bFrom'
    ∧ wf_runs lenA lenB aFrom' bFrom' rs2 = true.
Proof.
  revert st aFrom bFrom.
  induction rs1 as [|r rs1 IH]; intros st aFrom bFrom Hwin HaE HbE Hwf.
  - by exists st, aFrom, bFrom.
  - apply wf_runs_cons in Hwf as (Ha & Hb & HaL & HbL & Hwf).
    destruct (window_step st r) as (st1 & Hstep & Hwin1 & Ha1 & Hb1);
      [done|lia..|].
    simpl. rewrite Hstep. simpl. by eapply IH.
Qed.

(** X13. At every call of the oracle (after any number of its runs, these
    being in range and in order), the open window of windowed mode is
    right: the lines after its placeholder show exactly the lines
    [aStart, aEnd) of side A and [bStart, bEnd) of side B, each once and
    in order, and the placeholder is the first line of the array unless
    the window starts after index 0. *)
Theorem open_window_shows_its_range (rs1 rs2 : list Run) :
  wf_runs lenA lenB 0 0 (rs1 ++ rs2) = true →
  ∃ st, run_callbacks stepW NoExpand.initial rs1 = Some st ∧ holds st.
Proof.
  intros Hwf.
  destruct (window_callbacks rs1 rs2 NoExpand.initial 0 0 window_initial
              (Nat.le_refl 0) (Nat.le_refl 0) Hwf)
    as (st & _ & _ & Hrun & Hwin & _).
  by exists st.
Qed.

(** X14. When a call closes a window (the run is not at the start and is
    longer than its bound), the patch mark that replaces the placeholder
    names exactly what the window shows: the lines between the mark and
    the next placeholder (or the end of the array, for the final run)
    are the lines [aStart, aEnd) of side A and [bStart, bEnd) of side B
    of the mark's own arguments; and the window that the call opens is
    right in its turn. *)
Theorem closed_window_matches_its_mark (st : NoExpand.State) (r : Run) :
  holds st →
  atStart r = false →
  (if atEnd aLinesUn bLinesUn r then c else c + c) < nCommon r →
  NoExpand.aEnd st ≤ aCommon r → NoExpand.bEnd st ≤ bCommon r →
  aCommon r + nCommon r ≤ lenA → bCommon r + nCommon r ≤ lenB →
  ∃ st',
    stepW st r = Some st' ∧ holds st'
    ∧ NoExpand.array st' !! NoExpand.iPatchMark st
      = Some (createPatchMark ext (NoExpand.aStart st) (aCommon r + c)
                (NoExpand.bStart st) (bCommon r + c) options)
    ∧ shown
        (take (if atEnd aLinesUn bLinesUn r
               then length (NoExpand.array st')
               else NoExpand.iPatchMark st' - S (NoExpand.iPatchMark st))
           (drop (S (NoExpand.iPatchMark st)) (NoExpand.array st')))
        (NoExpand.aStart st) (aCommon r + c)
        (NoExpand.bStart st) (bCommon r + c)
    ∧ (atEnd aLinesUn bLinesUn r = false →
       NoExpand.iPatchMark st < NoExpand.iPatchMark st'
       ∧ NoExpand.array st' !! NoExpand.iPatchMark st' = Some []).
Proof.
  intros Hwin Hstart Hlong Ha Hb HaL HbL.
  destruct (window_step st r Hwin Ha Hb HaL HbL)
    as (st' & Hstep & Hwin' & _).
  exists st'. split; [done|]. split; [done|].
  destruct Hwin as (Hmark & Hfirst & HaS & HbS & Hshows).
  rewrite foundSubsequence_not_at_start in Hstep by (done || lia).
  simpl in Hstep.
  destruct (Nat.leb_spec (nCommon r)
              (if atEnd aLinesUn bLinesUn r then c else c + c))
    as [?|_]; [lia|].
  assert (c < nCommon r) as Hc by (destruct (atEnd aLinesUn bLinesUn r); lia).
  set (lines := (NoExpand.array st
                   ++ changeLines ext aLinesUn bLinesUn aLinesIn bLinesIn
                        options st r)
                ++ commonLines ext aLinesIn bLinesUn bLinesIn options c
                     (aCommon r) (bCommon r)) in Hstep.
  assert (NoExpand.iPatchMark st < length lines) as Hlines
    by (unfold lines; rewrite !length_app; lia).
  assert (shown (drop (S (NoExpand.iPatchMark st)) lines)
            (NoExpand.aStart st) (aCommon r + c)
            (NoExpand.bStart st) (bCommon r + c)) as Hclosed.
  { unfold lines. rewrite !drop_app_le by (rewrite ?length_app; lia).
    eapply shows_app; [..|by apply shows_commons]; [lia..|].
    eapply shows_app; [..|exact Hshows|apply shows_changes]; lia. }
  rewrite array_set_lt in Hstep by done.
  destruct (atEnd aLinesUn bLinesUn r); injection Hstep as <-; simpl.
  - split; [by apply list_lookup_insert_eq|]. split; [|done].
    rewrite drop_insert_lt by lia.
    rewrite take_ge; [done|]. rewrite length_drop, length_insert. lia.
  - rewrite array_set_length, <- (assoc_L (++)), length_insert.
    split.
    { rewrite lookup_app_l by (rewrite length_insert; lia).
      by apply list_lookup_insert_eq. }
    split.
    { rewrite drop_app_le by (rewrite length_insert; lia).
      rewrite drop_insert_lt by lia.
      rewrite take_app_length'; [done|]. rewrite length_drop. lia. }
    intros _. split; [lia|].
    rewrite lookup_app_r by (by rewrite length_insert).
    by rewrite length_insert, Nat.sub_diag.
Qed.

Lemma window_remaining (st : NoExpand.State) :
  holds st → NoExpand.aEnd st ≤ lenA → NoExpand.bEnd st ≤ lenB →
  ∃ st',
    NoExpand.remaining ext aLinesUn bLinesUn aLinesIn bLinesIn options st
    = Some st'
    ∧ holds st'.
Proof.
  destruct Hconsistent as [HA HB].
  intros (Hmark & Hfirst & HaS & HbS & Hshows) Ha Hb.
  unfold NoExpand.remaining, NoExpand.aLength, NoExpand.bLength.
  destruct (NoExpand.isAtEnd st).
  - exists st. by repeat split.
  - simpl. rewrite formatDelete_Some, formatInsert_Some by lia. simpl.
    eexists. split; [done|]. unfold window_holds. simpl.
    rewrite length_app, drop_app_le by lia.
    split; [lia|]. split; [done|]. split; [lia|]. split; [lia|].
    eapply shows_app; [..|exact Hshows|apply shows_changes]; lia.
Qed.

(** X15. The windowed pass, with the runs of the oracle in range and in
    order, ends in one of two ways. Either the last window spans both
    sequences: then no placeholder and no patch mark is in the output,
    and the output shows every line of both sides. Or the placeholder of
    the last window has become the patch mark of the window's
    boundaries, and the lines after it are exactly the lines
    [aStart, aEnd) of side A and [bStart, bEnd) of side B. *)
Theorem last_window_matches_its_mark :
  wf_runs lenA lenB 0 0 runs = true →
  ∃ st,
    NoExpand.pass ext aLinesUn bLinesUn aLinesIn bLinesIn options = Some st
    ∧ if (NoExpand.aStart st =? 0) && (NoExpand.aEnd st =? lenA)
         && (NoExpand.bStart st =? 0) && (NoExpand.bEnd st =? lenB)
      then shown (NoExpand.array st) 0 lenA 0 lenB
      else
        NoExpand.array st !! NoExpand.iPatchMark st
        = Some (createPatchMark ext (NoExpand.aStart st) (NoExpand.aEnd st)
                  (NoExpand.bStart st) (NoExpand.bEnd st) options)
        ∧ shown (drop (S (NoExpand.iPatchMark st)) (NoExpand.array st))
            (NoExpand.aStart st) (NoExpand.aEnd st)
            (NoExpand.bStart st) (NoExpand.bEnd st).
Proof.
  intros Hwf. rewrite <- (app_nil_r runs) in Hwf.
  destruct (window_callbacks runs [] NoExpand.initial 0 0 window_initial
              (Nat.le_refl 0) (Nat.le_refl 0) Hwf)
    as (st1 & aFrom & bFrom & Hrun & Hwin1 & Ha1 & Hb1 & Hnil).
  apply wf_runs_nil in Hnil as [HaF HbF].
  destruct (window_remaining st1 Hwin1) as (st2 & Hrem & Hwin2); [lia..|].
  eexists. split.
  { unfold NoExpand.pass, NoExpand.aLength, NoExpand.bLength.
    rewrite Hrun. simpl. rewrite Hrem. done. }
  destruct Hwin2 as (Hmark & Hfirst & HaS & HbS & Hshows).
  unfold NoExpand.lastPatchMark, NoExpand.aLength, NoExpand.bLength.
  cbn [NoExpand.aStart NoExpand.aEnd NoExpand.bStart NoExpand.bEnd
       NoExpand.array NoExpand.iPatchMark].
  destruct ((NoExpand.aStart st2 =? 0) && (NoExpand.aEnd st2 =? lenA)
            && (NoExpand.bStart st2 =? 0) && (NoExpand.bEnd st2 =? lenB))
    eqn:Hwhole.
  - apply andb_true_iff in Hwhole as [Hwhole HbE%Nat.eqb_eq].
    apply andb_true_iff in Hwhole as [Hwhole HbS0%Nat.eqb_eq].
    apply andb_true_iff in Hwhole as [HaS0%Nat.eqb_eq HaE%Nat.eqb_eq].
    destruct Hfirst as [Hfirst|?]; [|lia].
    by rewrite Hfirst, HaS0, HaE, HbS0, HbE in Hshows.
  - rewrite array_set_lt by done.
    split; [by apply list_lookup_insert_eq|].
    by rewrite drop_insert_lt by lia.
Qed.

End WindowProperties.

Lemma open_window_shows_its_range_witness :
  ∃ st,
    run_callbacks
      (NoExpand.foundSubsequence Example3.ext Example3.aLines Example3.bLines
         Example3.aLines Example3.bLines Example3.options)
      NoExpand.initial [Example3.run] = Some st
    ∧ window_holds Example3.ext Example3.aLines Example3.bLines
        Example3.aLines Example3.bLines Example3.options st.
Proof.
  apply (open_window_shows_its_range Example3.ext Example3.aLines
           Example3.bLines Example3.aLines Example3.bLines Example3.options
           (conj eq_refl eq_refl) [Example3.run] []).
  reflexivity.
Defined.

Lemma window_initial_example :
  window_holds Example3.ext Example3.aLines Example3.bLines Example3.aLines
    Example3.bLines (Sample.options 0 false) NoExpand.initial.
Proof. apply window_initial. Qed.

Lemma closed_window_matches_its_mark_witness :
  let options := Sample.options 0 false in
  let st := NoExpand.initial in
  let r := mkRun 2 1 1 in
  ∃ st',
    NoExpand.foundSubsequence Example3.ext Example3.aLines Example3.bLines
      Example3.aLines Example3.bLines options st r = Some st'
    ∧ window_holds Example3.ext Example3.aLines Example3.bLines
        Example3.aLines Example3.bLines options st'
    ∧ NoExpand.array st' !! NoExpand.iPatchMark st
      = Some (createPatchMark Example3.ext (NoExpand.aStart st)
                (aCommon r + contextLines options)
                (NoExpand.bStart st) (bCommon r + contextLines options)
                options)
    ∧ shows Example3.ext Example3.aLines Example3.bLines Example3.aLines
        Example3.bLines options
        (take (if atEnd Example3.aLines Example3.bLines r
               then length (NoExpand.array st')
               else NoExpand.iPatchMark st' - S (NoExpand.iPatchMark st))
           (drop (S (NoExpand.iPatchMark st)) (NoExpand.array st')))
        (NoExpand.aStart st) (aCommon r + contextLines options)
        (NoExpand.bStart st) (bCommon r + contextLines options)
    ∧ (atEnd Example3.aLines Example3.bLines r = false →
       NoExpand.iPatchMark st < NoExpand.iPatchMark st'
       ∧ NoExpand.array st' !! NoExpand.iPatchMark st' = Some []).
Proof.
  apply (closed_window_matches_its_mark Example3.ext Example3.aLines
           Example3.bLines Example3.aLines Example3.bLines
           (Sample.options 0 false) (conj eq_refl eq_refl)
           NoExpand.initial (mkRun 2 1 1) window_initial_example).
  - reflexivity.
  - simpl. lia.
  - simpl. lia.
  - simpl. lia.
  - simpl. lia.
  - simpl. lia.
Defined.

Lemma last_window_matches_its_mark_witness :
  ∃ st,
    NoExpand.pass Example3.ext Example3.aLines Example3.bLines
      Example3.aLines Example3.bLines Example3.options = Some st
    ∧ if (NoExpand.aStart st =? 0) && (NoExpand.aEnd st =? 4)
         && (NoExpand.bStart st =? 0) && (NoExpand.bEnd st =? 4)
      then shows Example3.ext Example3.aLines Example3.bLines
             Example3.aLines Example3.bLines Example3.options
             (NoExpand.array st) 0 4 0 4
      else
        NoExpand.array st !! NoExpand.iPatchMark st
        = Some (createPatchMark Example3.ext (NoExpand.aStart st)
                  (NoExpand.aEnd st) (NoExpand.bStart st) (NoExpand.bEnd st)
                  Example3.options)
        ∧ shows Example3.ext Example3.aLines Example3.bLines
            Example3.aLines Example3.bLines Example3.options
            (drop (S (NoExpand.iPatchMark st)) (NoExpand.array st))
            (NoExpand.aStart st) (NoExpand.aEnd st)
            (NoExpand.bStart st) (NoExpand.bEnd st).
Proof.
  apply (last_window_matches_its_mark Example3.ext Example3.aLines
           Example3.bLines Example3.aLines Example3.bLines Example3.options
           (conj eq_refl eq_refl)).
  reflexivity.
Defined.

(** ** The default export, whatever [original] is *)


